(** * Station uptime: a shallow embedding of [station_uptime.py]

    The development follows the source file function by function:
    [parse_input_file], [merge_intervals], [calculate_total_time],
    [calculate_station_uptime] and [main].

    Modelling conventions.
    - Python integers are unbounded, so they are [Z]; [//] is floor
      division, which is [Z.div] for a divisor other than zero.
    - An exception is a value; code that may raise lives in the [outcome]
      monad, and every operation of the source that can raise (a dictionary
      lookup, an index, [min]/[max] of an empty sequence, a division,
      [int], a [raise]) can raise in the model as well.
    - [stations] is the one dictionary the program iterates over, so it is
      an association list in insertion order ([pydict]); dictionaries that
      are only indexed and assigned are [gmap]s.
    - The file system is a function from paths to what reading the path
      gives: one of the errors of [open] and [readlines], or the list of
      lines that [readlines] returns.
    - Text is ASCII: a character is an [ascii] code point below 128.
      [int] is the one of CPython with its default limit of 4300 digits
      on the conversion of a string. *)

From stdpp Require Import base list sorting gmap strings pretty.
From Stdlib Require Import ZArith Lia Ascii.

Open Scope Z_scope.

(** ** Exceptions and the result monad *)

(** The exceptions of the interpreter that the calculator could raise. *)
Inductive exn : Type :=
  | KeyError (key : Z)
  | IndexError
  | ZeroDivisionError
  | ValueError (msg : string).

(** A computation returns a value or raises an exception of type [E]. *)
Inductive outcome (E A : Type) : Type :=
  | Ok (a : A)
  | Raise (e : E).
Arguments Ok {E A} a.
Arguments Raise {E A} e.

#[global] Instance outcome_ret {E} : MRet (outcome E) := λ A a, Ok a.
#[global] Instance outcome_bind {E} : MBind (outcome E) := λ A B f m,
  match m with
  | Ok a => f a
  | Raise e => Raise e
  end.

Abbreviation result := (outcome exn).

(** A [for] loop whose body may raise: the state is threaded from left to
    right and the first exception ends the loop. *)
Fixpoint for_each {E S X : Type} (body : S → X → outcome E S) (s : S)
    (xs : list X) : outcome E S :=
  match xs with
  | [] => Ok s
  | x :: xs' => s' ← body s x; for_each body s' xs'
  end.

(** ** Python primitives *)

(** [d[k]] on a dictionary that is only indexed. *)
Definition dict_getitem {V : Type} (d : gmap Z V) (k : Z) : result V :=
  match d !! k with
  | Some v => Ok v
  | None => Raise (KeyError k)
  end.

(** [l[i]] for a non-negative index, and [l[-1]]. *)
Definition list_getitem {A : Type} (l : list A) (i : nat) : result A :=
  match l !! i with
  | Some x => Ok x
  | None => Raise IndexError
  end.

Definition list_last {A : Type} (l : list A) : result A :=
  list_getitem l (length l - 1)%nat.

(** [l[-1] = x]: an index assignment, which raises on the empty list. *)
Definition list_set_last {A : Type} (l : list A) (x : A) : result (list A) :=
  match l with
  | [] => Raise IndexError
  | _ => Ok (<[(length l - 1)%nat := x]> l)
  end.

(** [min] and [max] of a sequence of integers. *)
Definition py_min (l : list Z) : result Z :=
  match l with
  | [] => Raise (ValueError "min() arg is an empty sequence")
  | x :: l' => Ok (foldl Z.min x l')
  end.

Definition py_max (l : list Z) : result Z :=
  match l with
  | [] => Raise (ValueError "max() arg is an empty sequence")
  | x :: l' => Ok (foldl Z.max x l')
  end.

Definition py_floordiv (a b : Z) : result Z :=
  if bool_decide (b = 0) then Raise ZeroDivisionError else Ok (a `div` b).

(** ** The data of the program *)

(** A report is the tuple [(charger_id, start_time, end_time, is_up)]. *)
Definition report : Type := Z * Z * Z * bool.

(** An insertion-ordered dictionary with integer keys: the items in the
    order in which the keys were first assigned. *)
Definition pydict (V : Type) : Type := list (Z * V).

(** Keys are unique in a dictionary. *)
Definition dict_wf {V : Type} (d : pydict V) : Prop := NoDup d.*1.

(** [d[k] = v]: the value of an existing key is replaced in place, a new
    key goes last. *)
Fixpoint dict_setitem {V : Type} (d : pydict V) (k : Z) (v : V) : pydict V :=
  match d with
  | [] => [(k, v)]
  | (k', v') :: d' =>
      if decide (k' = k) then (k', v) :: d' else (k', v') :: dict_setitem d' k v
  end.

(** ** Text: [str.strip], [str.split], [str.lower] and [int] *)

(** [str.isspace] on ASCII: tab, line feed, vertical tab, form feed,
    carriage return, the four separators 28 to 31, and the space. *)
Definition is_space (c : ascii) : bool :=
  let n := nat_of_ascii c in
  ((9 <=? n) && (n <=? 13) || (28 <=? n) && (n <=? 32))%nat.

Fixpoint lstrip (l : list ascii) : list ascii :=
  match l with
  | [] => []
  | c :: l' => if is_space c then lstrip l' else l
  end.

(** [line.strip()]. *)
Definition strip (s : string) : string :=
  String.string_of_list_ascii
    (reverse (lstrip (reverse (lstrip (String.list_ascii_of_string s))))).

(** [line.split()]: the maximal runs of characters that are not white
    space. [cur] is the run being read, last character first. *)
Fixpoint split_go (cur : list ascii) (l : list ascii) : list string :=
  match l with
  | [] =>
      match cur with
      | [] => []
      | _ => [String.string_of_list_ascii (reverse cur)]
      end
  | c :: l' =>
      if is_space c
      then match cur with
           | [] => split_go [] l'
           | _ => String.string_of_list_ascii (reverse cur) :: split_go [] l'
           end
      else split_go (c :: cur) l'
  end.

Definition split (s : string) : list string :=
  split_go [] (String.list_ascii_of_string s).

(** [s.lower()]. *)
Definition lower_char (c : ascii) : ascii :=
  let n := nat_of_ascii c in
  if ((65 <=? n) && (n <=? 90))%nat then ascii_of_nat (n + 32) else c.

Definition lower (s : string) : string :=
  String.string_of_list_ascii (lower_char <$> String.list_ascii_of_string s).

(** The outcome of [int(token)]: a value, the [ValueError] whose text
    starts with "invalid literal for int() with base 10", or the
    [ValueError] of the interpreter for a literal of more digits than
    [sys.get_int_max_str_digits()]. *)
Inductive int_result : Type :=
  | IntValue (z : Z)
  | InvalidLiteral
  | DigitLimit (digits : nat).

(** The default of [sys.get_int_max_str_digits()]. *)
Definition int_max_str_digits : nat := 4300.

Definition digit_value (c : ascii) : option Z :=
  let n := nat_of_ascii c in
  if ((48 <=? n) && (n <=? 57))%nat then Some (Z.of_nat (n - 48)) else None.

(** [Py_ISSPACE], the white space that [int] skips around an ASCII
    literal: tab, line feed, vertical tab, form feed, carriage return and
    the space. The separators 28 to 31 are white space for [str.strip] and
    [str.split], not for [int]. *)
Definition is_c_space (c : ascii) : bool :=
  let n := nat_of_ascii c in
  ((9 <=? n) && (n <=? 13) || (n =? 32))%nat.

Fixpoint skip_spaces (l : list ascii) : list ascii :=
  match l with
  | [] => []
  | c :: l' => if is_c_space c then skip_spaces l' else l
  end.

(** The scan over the digits of the literal: it stops at the first
    character that is neither a digit nor an underscore and gives the value
    read so far, the number of digits and what is left, or [None] when two
    underscores follow each other or an underscore comes last. *)
Fixpoint scan_digits (prev_underscore : bool) (value : Z) (digits : nat)
    (l : list ascii) : option (Z * nat * list ascii) :=
  match l with
  | [] => if prev_underscore then None else Some (value, digits, [])
  | c :: l' =>
      if bool_decide (c = "_"%char)
      then if prev_underscore then None
           else scan_digits true value digits l'
      else match digit_value c with
           | Some d => scan_digits false (value * 10 + d) (S digits) l'
           | None =>
               if prev_underscore then None else Some (value, digits, l)
           end
  end.

(** The sign that may come first, and what follows it. *)
Definition split_sign (l : list ascii) : bool * list ascii :=
  match l with
  | c :: body =>
      if bool_decide (c = "+"%char) then (false, body)
      else if bool_decide (c = "-"%char) then (true, body)
      else (false, l)
  | [] => (false, l)
  end.

(** [int(s)] for a string, in the order of the interpreter: white space is
    skipped, a sign may come first, the literal may not start with an
    underscore; the digits are scanned and counted, and a count above the
    limit is refused before anything after the digits is looked at; then
    the literal may not be empty, and only white space may follow it. *)
Definition py_int (s : string) : int_result :=
  let '(negative, body) :=
    split_sign (skip_spaces (String.list_ascii_of_string s)) in
  match body with
  | c :: _ =>
      if bool_decide (c = "_"%char) then InvalidLiteral
      else match scan_digits false 0 0 body with
           | None => InvalidLiteral
           | Some (value, digits, rest) =>
               if (int_max_str_digits <? digits)%nat then DigitLimit digits
               else if (digits =? 0)%nat then InvalidLiteral
               else match skip_spaces rest with
                    | [] => IntValue (if negative : bool then - value
                                      else value)
                    | _ => InvalidLiteral
                    end
           end
  | [] => InvalidLiteral
  end.
(** ** [parse_input_file] *)

(** What [open(file_path)] and [readlines()] give: [FileNotFoundError],
    another [IOError] with its text, a [ValueError] with its text (a null
    byte in the path, bytes that do not decode), or the lines of the
    file. *)
Inductive file : Type :=
  | FileMissing
  | FileUnreadable (e : string)
  | FileValueError (e : string)
  | FileLines (lines : list string).

(** The [ValueError]s that leave [parse_input_file], one constructor per
    [raise] of the source, with the values its message is formatted from,
    and two that pass through. [ReadValueError] is a [ValueError] of
    [open] or [readlines], which neither [except] clause catches.
    [IntStrDigitsLimit] is the error of [int] for a literal of too many
    digits: its text does not contain "invalid literal", so the handler
    re-raises it unchanged. *)
Inductive parse_error : Type :=
  | FileNotFound (file_path : string)
  | ReadError (e : string)
  | ReadValueError (e : string)
  | InvalidStationLine (line_num : nat)
  | StationIdOutOfRange (line_num : nat)
  | ChargerIdOutOfRange (line_num : nat)
  | DuplicateCharger (charger_id : Z) (line_num : nat)
  | DuplicateStation (station_id : Z) (line_num : nat)
  | InvalidInteger (line_num : nat)
  | IntStrDigitsLimit (digits : nat)
  | InvalidReportFormat (line_num : nat)
  | StartTimeOutOfRange (line_num : nat)
  | EndTimeOutOfRange (line_num : nat)
  | InvalidUpValue (line_num : nat)
  | InvalidTimeRange (line_num : nat)
  | UnknownCharger (charger_id : Z) (line_num : nat)
  | DataBeforeHeader (line_num : nat)
  | NoStationsDefined.

(** The shape of the messages that name a line. *)
Definition at_line (cause : string) (line_num : nat) (tail : string)
    : string :=
  cause +:+ " at line " +:+ pretty line_num +:+ tail.

(** [str(e)]: the text of the error. *)
Definition message (e : parse_error) : string :=
  match e with
  | FileNotFound file_path => "Input file not found: " +:+ file_path
  | ReadError e => "Error reading input file: " +:+ e
  | ReadValueError e => e
  | InvalidStationLine n => at_line "Invalid station line" n ""
  | StationIdOutOfRange n => at_line "Station ID out of uint32 range" n ""
  | ChargerIdOutOfRange n => at_line "Charger ID out of uint32 range" n ""
  | DuplicateCharger c n => at_line ("Duplicate charger ID " +:+ pretty c) n ""
  | DuplicateStation s n => at_line ("Duplicate station ID " +:+ pretty s) n ""
  | InvalidInteger n => at_line "Invalid integer" n ""
  | IntStrDigitsLimit d =>
      "Exceeds the limit (" +:+ pretty int_max_str_digits
      +:+ " digits) for integer string conversion: value has "
      +:+ pretty d
      +:+ " digits; use sys.set_int_max_str_digits() to increase the limit"
  | InvalidReportFormat n =>
      at_line "Invalid report format" n ": expected 4 fields"
  | StartTimeOutOfRange n => at_line "Start time out of uint64 range" n ""
  | EndTimeOutOfRange n => at_line "End time out of uint64 range" n ""
  | InvalidUpValue n =>
      at_line "Invalid up value" n ": must be 'true' or 'false'"
  | InvalidTimeRange n => at_line "Invalid time range" n ": start >= end"
  | UnknownCharger c n => at_line ("Unknown charger ID " +:+ pretty c) n ""
  | DataBeforeHeader n => at_line "Data found before section header" n ""
  | NoStationsDefined => "No stations defined in input file"
  end.

Abbreviation parsed := (outcome parse_error).

Inductive section : Type := SecStations | SecReports.

(** The local variables of the loop over the lines. *)
Record parse_state : Type := ParseState {
  current_section : option section;
  charger_to_station : gmap Z Z;
  stations : pydict (list Z);
  reports : list report
}.

Definition initial_state : parse_state :=
  {| current_section := None; charger_to_station := ∅;
     stations := []; reports := [] |}.

(** [int(token)] under the handler of the [try] block: an "invalid
    literal" error becomes "Invalid integer at line ...", any other
    [ValueError] is raised again as it is. *)
Definition int_at (line_num : nat) (token : string) : parsed Z :=
  match py_int token with
  | IntValue z => Ok z
  | InvalidLiteral => Raise (InvalidInteger line_num)
  | DigitLimit digits => Raise (IntStrDigitsLimit digits)
  end.

(** The body of [for i in range(1, len(parts))]. *)
Definition charger_step (line_num : nat) (station_id : Z)
    (acc : gmap Z Z * list Z) (token : string)
    : parsed (gmap Z Z * list Z) :=
  let '(charger_to_station, charger_ids) := acc in
  charger_id ← int_at line_num token;
  if bool_decide (charger_id < 0 ∨ charger_id > 4294967295)
  then Raise (ChargerIdOutOfRange line_num)
  else if bool_decide (is_Some (charger_to_station !! charger_id))
  then Raise (DuplicateCharger charger_id line_num)
  else Ok (<[charger_id := station_id]> charger_to_station,
           charger_ids ++ [charger_id]).

(** A line of the Stations section. *)
Definition station_line (line_num : nat) (st : parse_state) (line : string)
    : parsed parse_state :=
  match split line with
  | [] => Raise (InvalidStationLine line_num)
  | token :: tokens =>
      station_id ← int_at line_num token;
      if bool_decide (station_id < 0 ∨ station_id > 4294967295)
      then Raise (StationIdOutOfRange line_num)
      else
        '(c2s, charger_ids) ←
          for_each (charger_step line_num station_id)
                   (charger_to_station st, []) tokens;
        if bool_decide (station_id ∈ (stations st).*1)
        then Raise (DuplicateStation station_id line_num)
        else Ok {| current_section := current_section st;
                   charger_to_station := c2s;
                   stations := dict_setitem (stations st) station_id
                                            charger_ids;
                   reports := reports st |}
  end.

(** A line of the Charger Availability Reports section. *)
Definition report_line (line_num : nat) (st : parse_state) (line : string)
    : parsed parse_state :=
  match split line with
  | [p0; p1; p2; p3] =>
      charger_id ← int_at line_num p0;
      start_time ← int_at line_num p1;
      end_time ← int_at line_num p2;
      let up_str := lower p3 in
      if bool_decide (charger_id < 0 ∨ charger_id > 4294967295)
      then Raise (ChargerIdOutOfRange line_num)
      else if bool_decide (start_time < 0 ∨ start_time > 18446744073709551615)
      then Raise (StartTimeOutOfRange line_num)
      else if bool_decide (end_time < 0 ∨ end_time > 18446744073709551615)
      then Raise (EndTimeOutOfRange line_num)
      else
        is_up ←
          (if bool_decide (up_str = "true") then Ok true
           else if bool_decide (up_str = "false") then Ok false
           else Raise (InvalidUpValue line_num));
        if bool_decide (start_time >= end_time)
        then Raise (InvalidTimeRange line_num)
        else if bool_decide (charger_to_station st !! charger_id = None)
        then Raise (UnknownCharger charger_id line_num)
        else Ok {| current_section := current_section st;
                   charger_to_station := charger_to_station st;
                   stations := stations st;
                   reports := reports st
                              ++ [(charger_id, start_time, end_time, is_up)] |}
  | _ => Raise (InvalidReportFormat line_num)
  end.

Definition set_section (st : parse_state) (s : section) : parse_state :=
  {| current_section := Some s;
     charger_to_station := charger_to_station st;
     stations := stations st;
     reports := reports st |}.

(** The body of the loop over [enumerate(lines, 1)]. *)
Definition parse_line (st : parse_state) (item : nat * string)
    : parsed parse_state :=
  let '(line_num, line) := item in
  let line := strip line in
  if bool_decide (line = "") then Ok st
  else if bool_decide (line = "[Stations]") then Ok (set_section st SecStations)
  else if bool_decide (line = "[Charger Availability Reports]")
  then Ok (set_section st SecReports)
  else match current_section st with
       | Some SecStations => station_line line_num st line
       | Some SecReports => report_line line_num st line
       | None => Raise (DataBeforeHeader line_num)
       end.

(** [enumerate(lines, start)]. *)
Definition enumerate {A : Type} (start : nat) (l : list A) : list (nat * A) :=
  zip (seq start (length l)) l.

(** The loop over the lines. *)
Definition parse_lines (st : parse_state) (start : nat) (lines : list string)
    : parsed parse_state :=
  for_each parse_line st (enumerate start lines).

(** The part of [parse_input_file] after the file has been read. *)
Definition parse_text (lines : list string)
    : parsed (pydict (list Z) * list report) :=
  st ← parse_lines initial_state 1 lines;
  if bool_decide (stations st = []) then Raise NoStationsDefined
  else Ok (stations st, reports st).

(** [fs] is the file system: what reading each path gives. *)
Definition parse_input_file (fs : string → file) (file_path : string)
    : parsed (pydict (list Z) * list report) :=
  lines ←
    match fs file_path with
    | FileMissing => Raise (FileNotFound file_path)
    | FileUnreadable e => Raise (ReadError e)
    | FileValueError e => Raise (ReadValueError e)
    | FileLines lines => Ok lines
    end;
  parse_text lines.

(** ** Intervals and [sorted] *)

Definition interval : Type := Z * Z.

(** The order of Python on pairs of integers: lexicographic. *)
Definition tuple_le (a b : interval) : Prop :=
  a.1 < b.1 ∨ (a.1 = b.1 ∧ a.2 ≤ b.2).

#[global] Instance tuple_le_dec : RelDecision tuple_le.
Proof. intros a b. unfold tuple_le. apply _. Defined.

(** [sorted(intervals)]. The order is total and antisymmetric, so the
    sorted permutation of a list is unique and the choice of algorithm
    (and its stability) cannot be observed. *)
Definition sorted (intervals : list interval) : list interval :=
  merge_sort tuple_le intervals.

(** ** [merge_intervals] *)

(** The body of the loop over [sorted_intervals[1:]]. *)
Definition merge_step (merged : list interval) (iv : interval)
    : result (list interval) :=
  let '(start, end_) := iv in
  '(last_start, last_end) ← list_last merged;
  if bool_decide (start ≤ last_end)
  then list_set_last merged (last_start, last_end `max` end_)
  else Ok (merged ++ [(start, end_)]).

Definition merge_intervals (intervals : list interval)
    : result (list interval) :=
  if bool_decide (intervals = []) then Ok []
  else
    let sorted_intervals := sorted intervals in
    first ← list_getitem sorted_intervals 0;
    for_each merge_step [first] (drop 1 sorted_intervals).

(** ** [calculate_total_time] *)

Definition calculate_total_time (intervals : list interval) : Z :=
  foldl (λ acc '(start, end_), acc + (end_ - start)) 0 intervals.

(** ** [calculate_station_uptime] *)

(** The first loop: [charger_to_station[charger_id] = station_id]. *)
Definition build_charger_to_station (stations : pydict (list Z))
    : gmap Z Z :=
  foldl (λ c2s '(station_id, charger_ids),
           foldl (λ c2s' charger_id, <[charger_id := station_id]> c2s')
                 c2s charger_ids)
        ∅ stations.

(** [{sid: [] for sid in stations}]. *)
Definition empty_station_reports (stations : pydict (list Z))
    : gmap Z (list (Z * Z * bool)) :=
  foldl (λ d sid, <[sid := []]> d) ∅ stations.*1.

(** The body of the loop that groups the reports by station. *)
Definition group_step (charger_to_station : gmap Z Z)
    (station_reports : gmap Z (list (Z * Z * bool))) (r : report)
    : result (gmap Z (list (Z * Z * bool))) :=
  let '(charger_id, start_time, end_time, is_up) := r in
  station_id ← dict_getitem charger_to_station charger_id;
  l ← dict_getitem station_reports station_id;
  Ok (<[station_id := l ++ [(start_time, end_time, is_up)]]> station_reports).

(** [up_intervals]: the reports with [is_up], in order. *)
Definition collect_up (reports_for_station : list (Z * Z * bool))
    : list interval :=
  foldl (λ up '(start_time, end_time, is_up),
           if is_up : bool then up ++ [(start_time, end_time)] else up)
        [] reports_for_station.

(** The uptime of a station with the reports [reports_for_station]:
    the body of the last loop, without the assignment to [uptimes]. *)
Definition station_uptime (reports_for_station : list (Z * Z * bool))
    : result Z :=
  if bool_decide (reports_for_station = []) then Ok 0
  else
    min_start ← py_min ((λ r, r.1.1) <$> reports_for_station);
    max_end ← py_max ((λ r, r.1.2) <$> reports_for_station);
    let total_time := max_end - min_start in
    let up_intervals := collect_up reports_for_station in
    merged_up ← merge_intervals up_intervals;
    let up_time := calculate_total_time merged_up in
    if bool_decide (total_time = 0) then Ok 0
    else py_floordiv (up_time * 100) total_time.

Definition uptime_step (station_reports : gmap Z (list (Z * Z * bool)))
    (uptimes : gmap Z Z) (item : Z * list Z) : result (gmap Z Z) :=
  let '(station_id, charger_ids) := item in
  reports_for_station ← dict_getitem station_reports station_id;
  pct ← station_uptime reports_for_station;
  Ok (<[station_id := pct]> uptimes).

Definition calculate_station_uptime (stations : pydict (list Z))
    (reports : list report) : result (gmap Z Z) :=
  let charger_to_station := build_charger_to_station stations in
  station_reports ←
    for_each (group_step charger_to_station)
             (empty_station_reports stations) reports;
  for_each (uptime_step station_reports) ∅ stations.

(** ** [main] *)

(** How the script ends: [main] returns, [sys.exit(code)] is called, or an
    exception is caught by no handler. *)
Inductive termination : Type :=
  | Returns
  | SysExit (code : Z)
  | Uncaught (e : exn).

(** The exit status of the process. *)
Definition exit_code (t : termination) : Z :=
  match t with
  | Returns => 0
  | SysExit code => code
  | Uncaught _ => 1
  end.

(** What a run of the script leaves behind: the lines printed to the
    standard output and to the standard error, and how it ended. *)
Record run : Type := Run {
  stdout : list string;
  stderr : list string;
  status : termination
}.

(** [str(e)] for the exceptions of the calculator. *)
Definition exn_text (e : exn) : string :=
  match e with
  | KeyError key => pretty key
  | IndexError => "list index out of range"
  | ZeroDivisionError => "integer division or modulo by zero"
  | ValueError msg => msg
  end.

(** [sorted(uptimes.keys())]. *)
Definition sorted_keys (uptimes : gmap Z Z) : list Z :=
  merge_sort Z.le (map_to_list uptimes).*1.

(** The line [f"{station_id} {uptimes[station_id]}"]. *)
Definition uptime_line (station_id pct : Z) : string :=
  pretty station_id +:+ " " +:+ pretty pct.

(** The loop that prints the result: [out] is what has been printed, and
    an exception leaves the lines printed before it on the output. *)
Fixpoint print_uptimes (uptimes : gmap Z Z) (keys : list Z)
    (out : list string) : list string * option exn :=
  match keys with
  | [] => (out, None)
  | station_id :: keys' =>
      match dict_getitem uptimes station_id with
      | Ok pct =>
          print_uptimes uptimes keys' (out ++ [uptime_line station_id pct])
      | Raise e => (out, Some e)
      end
  end.

(** The two handlers of the [try] block, for an exception raised after
    [out] was printed. *)
Definition handle (out : list string) (e : exn) : run :=
  match e with
  | ValueError msg =>
      Run (out ++ ["ERROR"]) ["Error: " +:+ msg] (SysExit 1)
  | _ =>
      Run (out ++ ["ERROR"]) ["Unexpected error: " +:+ exn_text e] (SysExit 1)
  end.

(** [main], for the arguments [argv] of the process. *)
Definition main (fs : string → file) (argv : list string) : run :=
  if bool_decide (length argv ≠ 2%nat)
  then
    match list_getitem argv 0 with
    | Ok program =>
        Run ["ERROR"] ["Usage: " +:+ program +:+ " <input_file>"] (SysExit 1)
    | Raise e => Run ["ERROR"] [] (Uncaught e)
    end
  else
    match list_getitem argv 1 with
    | Raise e => Run [] [] (Uncaught e)
    | Ok input_file =>
        match parse_input_file fs input_file with
        | Raise e => Run ["ERROR"] ["Error: " +:+ message e] (SysExit 1)
        | Ok (stations, reports) =>
            match calculate_station_uptime stations reports with
            | Raise e => handle [] e
            | Ok uptimes =>
                match print_uptimes uptimes (sorted_keys uptimes) [] with
                | (out, None) => Run out [] Returns
                | (out, Some e) => handle out e
                end
            end
        end
    end.

(** ** Specification-side notions for intervals *)

(** The sweep of [merge_intervals] as a structural recursion: [cur] is the
    running interval [merged[-1]], and the intervals before it are final. *)
Fixpoint sweep (cur : interval) (rest : list interval) : list interval :=
  match rest with
  | [] => [cur]
  | (start, end_) :: rest' =>
      if bool_decide (start ≤ cur.2)
      then sweep (cur.1, cur.2 `max` end_) rest'
      else cur :: sweep (start, end_) rest'
  end.

(** The instant [t] lies in one of the intervals ([start ≤ t < end]). *)
Definition covers (l : list interval) (t : Z) : Prop :=
  Exists (λ iv, iv.1 ≤ t < iv.2) l.

#[global] Instance covers_dec l t : Decision (covers l t).
Proof. unfold covers. apply _. Defined.

(** The number of instants of the window [lo, hi) that satisfy [P]. *)
Definition measure (P : Z → Prop) `{!∀ t, Decision (P t)} (lo hi : Z) : Z :=
  Z.of_nat (length (filter P (seqZ lo (hi - lo)))).

(** The length of the union of the intervals of [l]: the number of unit
    instants covered, counted over the hull of [l]. *)
Definition union_length (l : list interval) : Z :=
  match l with
  | [] => 0
  | (s, e) :: l' =>
      measure (covers l) (foldl Z.min s l'.*1) (foldl Z.max e l'.*2)
  end.

(** An interval is well formed when it does not end before it starts. *)
Definition interval_wf (iv : interval) : Prop := iv.1 ≤ iv.2.

(** Consecutive starts are ordered, and every interval ends strictly before
    each later one starts. *)
Definition sorted_by_start (l : list interval) : Prop :=
  StronglySorted (λ a b, a.1 ≤ b.1) l.
Definition strictly_apart (l : list interval) : Prop :=
  StronglySorted (λ a b, a.2 < b.1) l.

(** The merged list as a function of the input. *)
Definition merged_of (l : list interval) : list interval :=
  match sorted l with
  | [] => []
  | first :: rest => sweep first rest
  end.

(** An interval inside the window [lo, hi]. *)
Definition within (lo hi : Z) (iv : interval) : Prop :=
  lo ≤ iv.1 ∧ iv.1 ≤ iv.2 ∧ iv.2 ≤ hi.

(** ** Specification-side notions for stations *)

Definition charger_of (r : report) : Z := r.1.1.1.
Definition start_of (r : report) : Z := r.1.1.2.
Definition end_of (r : report) : Z := r.1.2.
Definition up_of (r : report) : bool := r.2.

(** The triple [(start_time, end_time, is_up)] filed under a station. *)
Definition triple_of (r : report) : Z * Z * bool :=
  (start_of r, end_of r, up_of r).

(** Station [sid] lists charger [c]. *)
Definition owns (stations : pydict (list Z)) (sid c : Z) : Prop :=
  Exists (λ item, item.1 = sid ∧ c ∈ item.2) stations.

#[global] Instance owns_dec stations sid c : Decision (owns stations sid c).
Proof. unfold owns. apply _. Defined.

(** A charger belongs to at most one station. *)
Definition chargers_unique (stations : pydict (list Z)) : Prop :=
  ∀ c s1 s2, owns stations s1 c → owns stations s2 c → s1 = s2.

(** Charger [c] is in the charger list of some station. *)
Definition listed (stations : pydict (list Z)) (c : Z) : Prop :=
  Exists (λ item : Z * list Z, c ∈ item.2) stations.

(** Every report is about a charger of some station. *)
Definition chargers_known (stations : pydict (list Z))
    (reports : list report) : Prop :=
  Forall (λ r, listed stations (charger_of r)) reports.

#[global] Instance listed_dec stations c : Decision (listed stations c).
Proof. unfold listed. apply _. Defined.
#[global] Instance chargers_known_dec stations reports :
  Decision (chargers_known stations reports).
Proof. unfold chargers_known. apply _. Defined.

(** The reports of a station: those about one of its chargers. *)
Definition reports_of (stations : pydict (list Z)) (sid : Z)
    (reports : list report) : list report :=
  filter (λ r, owns stations sid (charger_of r)) reports.

(** The [isUp = true] intervals of a list of reports. *)
Definition up_intervals_of (rs : list report) : list interval :=
  (λ r, (start_of r, end_of r)) <$> filter (λ r, up_of r = true) rs.

(** [lo] is the least element of [l], [hi] is the greatest. *)
Definition is_min (lo : Z) (l : list Z) : Prop := lo ∈ l ∧ Forall (λ x, lo ≤ x) l.
Definition is_max (hi : Z) (l : list Z) : Prop := hi ∈ l ∧ Forall (λ x, x ≤ hi) l.

#[global] Instance is_min_dec lo l : Decision (is_min lo l).
Proof. unfold is_min. apply _. Defined.
#[global] Instance is_max_dec hi l : Decision (is_max hi l).
Proof. unfold is_max. apply _. Defined.

(** [v] is the floor of [num / den], that is [v ≤ num / den < v + 1],
    written without division for a divisor of either sign. *)
Definition is_floor (v num den : Z) : Prop :=
  v * den ≤ num < (v + 1) * den ∨ (v + 1) * den < num ≤ v * den.

(** What the last loop stores for a station whose reports, as
    [(start, end, is_up)] triples, are [l]. *)
Definition uptime_of (l : list (Z * Z * bool)) : Z :=
  match l with
  | [] => 0
  | r :: l' =>
      let min_start := foldl Z.min r.1.1 ((λ r, r.1.1) <$> l') in
      let max_end := foldl Z.max r.1.2 ((λ r, r.1.2) <$> l') in
      let total_time := max_end - min_start in
      if bool_decide (total_time = 0) then 0
      else (calculate_total_time (merged_of (collect_up l)) * 100)
             `div` total_time
  end.

(** The triples the grouping loop files under the station that
    [charger_to_station] names. *)
Definition grouped (c2s : gmap Z Z) (sid : Z) (reports : list report)
    : list (Z * Z * bool) :=
  triple_of <$> filter (λ r, c2s !! charger_of r = Some sid) reports.

(** ** What the parser guarantees *)

Definition UINT32_MAX : Z := 4294967295.
Definition UINT64_MAX : Z := 18446744073709551615.

(** No charger is listed twice, be it under one station or under two. *)
Definition chargers_distinct (stations : pydict (list Z)) : Prop :=
  NoDup (mjoin stations.*2).

Definition parser_invariants (stations : pydict (list Z))
    (reports : list report) : Prop :=
  dict_wf stations ∧
  chargers_distinct stations ∧
  chargers_known stations reports ∧
  Forall (λ r, start_of r < end_of r) reports ∧
  Forall (λ item : Z * list Z,
            0 ≤ item.1 ≤ UINT32_MAX ∧
            Forall (λ c, 0 ≤ c ≤ UINT32_MAX) item.2) stations ∧
  Forall (λ r, 0 ≤ charger_of r ≤ UINT32_MAX ∧
               0 ≤ start_of r ≤ UINT64_MAX ∧
               0 ≤ end_of r ≤ UINT64_MAX) reports.

(** ** Specification-side notions for the parser *)

(** The line number an error names, if it names one. *)
Definition error_line (e : parse_error) : option nat :=
  match e with
  | FileNotFound _ | ReadError _ | ReadValueError _ | IntStrDigitsLimit _
  | NoStationsDefined => None
  | InvalidStationLine n | StationIdOutOfRange n | ChargerIdOutOfRange n
  | DuplicateCharger _ n | DuplicateStation _ n | InvalidInteger n
  | InvalidReportFormat n | StartTimeOutOfRange n | EndTimeOutOfRange n
  | InvalidUpValue n | InvalidTimeRange n | UnknownCharger _ n
  | DataBeforeHeader n => Some n
  end.

(** The kinds of line the loop tells apart. *)
Inductive line_kind : Type :=
  | Blank
  | Header (s : section)
  | Data.

Definition kind_of (line : string) : line_kind :=
  let line := strip line in
  if bool_decide (line = "") then Blank
  else if bool_decide (line = "[Stations]") then Header SecStations
  else if bool_decide (line = "[Charger Availability Reports]")
  then Header SecReports
  else Data.

(** The data lines that fall in a Stations section, [sec] being the
    section that is current before the first line. *)
Fixpoint station_data_lines (sec : option section) (lines : list string)
    : list string :=
  match lines with
  | [] => []
  | line :: lines' =>
      match kind_of line with
      | Blank => station_data_lines sec lines'
      | Header s => station_data_lines (Some s) lines'
      | Data =>
          match sec with
          | Some SecStations => line :: station_data_lines sec lines'
          | _ => station_data_lines sec lines'
          end
      end
  end.

(** The tokens are integer literals with the values [zs]. *)
Definition tokens_are (tokens : list string) (zs : list Z) : Prop :=
  Forall2 (λ token z, py_int token = IntValue z) tokens zs.

Definition in_uint32 (z : Z) : Prop := 0 ≤ z ≤ UINT32_MAX.
Definition in_uint64 (z : Z) : Prop := 0 ≤ z ≤ UINT64_MAX.

(** The up flag, read without regard to case. *)
Definition up_flag (token : string) (is_up : bool) : Prop :=
  lower token = (if is_up then "true" else "false").

(** What holds of the local variables after every line. *)
Definition state_inv (st : parse_state) : Prop :=
  dict_wf (stations st) ∧
  chargers_distinct (stations st) ∧
  (∀ c, is_Some (charger_to_station st !! c) ↔ listed (stations st) c) ∧
  Forall (λ item : Z * list Z,
            in_uint32 item.1 ∧ Forall in_uint32 item.2) (stations st) ∧
  Forall (λ r, listed (stations st) (charger_of r) ∧
               start_of r < end_of r ∧
               in_uint32 (charger_of r) ∧
               in_uint64 (start_of r) ∧ in_uint64 (end_of r)) (reports st).

(** [st] with the report [r] appended. *)
Definition add_report (st : parse_state) (r : report) : parse_state :=
  {| current_section := current_section st;
     charger_to_station := charger_to_station st;
     stations := stations st;
     reports := reports st ++ [r] |}.

(** [line] is a data line that begins with the station [sid] and the
    chargers [cs], all integers of 32 bits; [rest] is what follows them. *)
Definition station_prefix (line : string) (sid : Z) (cs : list Z)
    (rest : list string) : Prop :=
  kind_of line = Data ∧
  ∃ token tokens,
    split (strip line) = token :: tokens ++ rest ∧
    py_int token = IntValue sid ∧ tokens_are tokens cs ∧
    in_uint32 sid ∧ Forall in_uint32 cs.

(** [line] is a data line whose tokens are integers of 32 bits: the
    station [sid] followed by the chargers [cs]. *)
Definition station_tokens (line : string) (sid : Z) (cs : list Z) : Prop :=
  station_prefix line sid cs [].

(** [line] is a data line of four tokens that reads as the report
    [(c, s, e, u)], with the values in range and [s < e]. *)
Definition report_tokens (line : string) (r : report) : Prop :=
  kind_of line = Data ∧
  ∃ p0 p1 p2 p3,
    split (strip line) = [p0; p1; p2; p3] ∧
    py_int p0 = IntValue (charger_of r) ∧
    py_int p1 = IntValue (start_of r) ∧
    py_int p2 = IntValue (end_of r) ∧
    up_flag p3 (up_of r) ∧
    in_uint32 (charger_of r) ∧ in_uint64 (start_of r) ∧
    in_uint64 (end_of r) ∧ start_of r < end_of r.

(** [st] with the station [sid] and its chargers [cs] declared. *)
Definition add_station (st : parse_state) (sid : Z) (cs : list Z)
    : parse_state :=
  {| current_section := current_section st;
     charger_to_station :=
       foldl (λ m c, <[c := sid]> m) (charger_to_station st) cs;
     stations := stations st ++ [(sid, cs)];
     reports := reports st |}.


(** No token of the line has more characters than [int] accepts
    digits. *)
Definition tokens_short (line : string) : Prop :=
  Forall (λ token, (String.length token ≤ int_max_str_digits)%nat)
         (split (strip line)).

#[global] Instance tokens_short_dec line : Decision (tokens_short line).
Proof. unfold tokens_short. apply _. Defined.


(** Charger [c] is declared on a station line of [lines]. *)
Definition declared_in (lines : list string) (c : Z) : Prop :=
  ∃ line sid cs,
    line ∈ station_data_lines None lines ∧ station_tokens line sid cs ∧ c ∈ cs.

(** The charger IDs of a station line: the integers among the tokens
    after the first. *)
Definition line_chargers (line : string) : list Z :=
  omap (λ token, match py_int token with
                 | IntValue z => Some z
                 | _ => None
                 end)
       (drop 1 (split (strip line))).

(** The charger IDs that appear in the Stations section, in order. *)
Definition declared_chargers (lines : list string) : list Z :=
  mjoin (line_chargers <$> station_data_lines None lines).

(** The data lines that fall in a Charger Availability Reports section,
    [sec] being the section that is current before the first line. *)
Fixpoint report_data_lines (sec : option section) (lines : list string)
    : list string :=
  match lines with
  | [] => []
  | line :: lines' =>
      match kind_of line with
      | Blank => report_data_lines sec lines'
      | Header s => report_data_lines (Some s) lines'
      | Data =>
          match sec with
          | Some SecReports => line :: report_data_lines sec lines'
          | _ => report_data_lines sec lines'
          end
      end
  end.

(** Station [sid] is declared on a station line of [lines]. *)
Definition station_declared_in (lines : list string) (sid : Z) : Prop :=
  ∃ line cs, line ∈ station_data_lines None lines ∧ station_tokens line sid cs.

(** ** The tests of the repository, evaluated on the model *)

Example test_empty_intervals : merge_intervals [] = Ok [].
Proof. vm_compute. reflexivity. Qed.

Example test_adjacent_intervals :
  merge_intervals [(0, 50); (50, 100)] = Ok [(0, 100)].
Proof. vm_compute. reflexivity. Qed.

Example test_contained_intervals :
  merge_intervals [(0, 100); (25, 75)] = Ok [(0, 100)].
Proof. vm_compute. reflexivity. Qed.

Example test_multiple_overlapping :
  merge_intervals [(0, 30); (20, 50); (40, 80); (100, 120)]
  = Ok [(0, 80); (100, 120)].
Proof. vm_compute. reflexivity. Qed.

Example test_unsorted_intervals :
  merge_intervals [(50, 100); (0, 30); (20, 60)] = Ok [(0, 100)].
Proof. vm_compute. reflexivity. Qed.

Example test_same_start_different_end :
  merge_intervals [(0, 50); (0, 100)] = Ok [(0, 100)].
Proof. vm_compute. reflexivity. Qed.

Example test_multiple_intervals :
  calculate_total_time [(0, 50); (100, 200)] = 150.
Proof. vm_compute. reflexivity. Qed.

Example union_length_overlap : union_length [(0, 30); (20, 50); (70, 80)] = 60.
Proof. vm_compute. reflexivity. Qed.

Example test_floor_rounding :
  calculate_station_uptime [(0, [1001])]
    [(1001, 0, 10, true); (1001, 10, 20, false); (1001, 20, 30, true)]
  = Ok {[ 0 := 66 ]}.
Proof. vm_compute. reflexivity. Qed.

Example test_multiple_chargers_overlap :
  calculate_station_uptime [(0, [1001; 1002])]
    [(1001, 0, 60, true); (1002, 40, 100, true)]
  = Ok {[ 0 := 100 ]}.
Proof. vm_compute. reflexivity. Qed.

Example test_station_with_no_reports :
  calculate_station_uptime [(0, [1001]); (1, [1002])] [(1001, 0, 100, true)]
  = Ok {[ 0 := 100; 1 := 0 ]}.
Proof. vm_compute. reflexivity. Qed.

Example test_input_1_example :
  calculate_station_uptime [(0, [1001; 1002]); (1, [1003]); (2, [1004])]
    [(1001, 0, 50000, true); (1001, 50000, 100000, true);
     (1002, 50000, 100000, true); (1003, 25000, 75000, false);
     (1004, 0, 50000, true); (1004, 100000, 200000, true)]
  = Ok {[ 0 := 100; 1 := 0; 2 := 75 ]}.
Proof. vm_compute. reflexivity. Qed.

Example test_input_2_example :
  calculate_station_uptime [(0, [0]); (1, [1])]
    [(0, 10, 20, true); (0, 20, 30, false); (0, 30, 40, true); (1, 0, 1, true)]
  = Ok {[ 0 := 66; 1 := 100 ]}.
Proof. vm_compute. reflexivity. Qed.

Example test_just_under_one_percent :
  calculate_station_uptime [(0, [1001])]
    [(1001, 0, 1, true); (1001, 1, 200, false)]
  = Ok {[ 0 := 0 ]}.
Proof. vm_compute. reflexivity. Qed.

Example test_valid_input :
  parse_text
    ["[Stations]"; "0 1001 1002"; "1 1003"; "";
     "[Charger Availability Reports]";
     "1001 0 100 true"; "1002 50 150 false"; "1003 0 200 true"]
  = Ok ([(0, [1001; 1002]); (1, [1003])],
        [(1001, 0, 100, true); (1002, 50, 150, false); (1003, 0, 200, true)]).
Proof. vm_compute. reflexivity. Qed.

Example test_missing_file :
  parse_input_file (λ _, FileMissing) "nonexistent_file.txt"
  = Raise (FileNotFound "nonexistent_file.txt").
Proof. reflexivity. Qed.

Example test_invalid_boolean :
  parse_text
    ["[Stations]"; "0 1001"; ""; "[Charger Availability Reports]";
     "1001 0 100 maybe"]
  = Raise (InvalidUpValue 5).
Proof. vm_compute. reflexivity. Qed.

Example test_invalid_boolean_message :
  message (InvalidUpValue 5)
  = "Invalid up value at line 5: must be 'true' or 'false'".
Proof. vm_compute. reflexivity. Qed.

Example test_unknown_charger_id :
  parse_text
    ["[Stations]"; "0 1001"; ""; "[Charger Availability Reports]";
     "9999 0 100 true"]
  = Raise (UnknownCharger 9999 5).
Proof. vm_compute. reflexivity. Qed.

Example test_duplicate_station_id :
  parse_text ["[Stations]"; "0 1001"; "0 1002"] = Raise (DuplicateStation 0 3).
Proof. vm_compute. reflexivity. Qed.

Example test_duplicate_charger_id :
  parse_text
    ["[Stations]"; "0 1001"; "1 1001"; ""; "[Charger Availability Reports]";
     "1001 0 100 true"]
  = Raise (DuplicateCharger 1001 3).
Proof. vm_compute. reflexivity. Qed.

Example test_duplicate_charger_message :
  message (DuplicateCharger 1001 3) = "Duplicate charger ID 1001 at line 3".
Proof. vm_compute. reflexivity. Qed.

Example test_invalid_time_range :
  parse_text
    ["[Stations]"; "0 1001"; ""; "[Charger Availability Reports]";
     "1001 100 50 true"]
  = Raise (InvalidTimeRange 5).
Proof. vm_compute. reflexivity. Qed.

Example test_station_with_no_chargers :
  parse_text ["[Stations]"; "0"; ""; "[Charger Availability Reports]"]
  = Ok ([(0, [])], []).
Proof. vm_compute. reflexivity. Qed.

(** ** The text primitives on examples *)

Example strip_line : strip "  0 1001	1002 
" = "0 1001	1002".
Proof. vm_compute. reflexivity. Qed.

Example split_line : split "0  1001	1002" = ["0"; "1001"; "1002"].
Proof. vm_compute. reflexivity. Qed.

Example lower_mixed : lower "TrUe" = "true".
Proof. vm_compute. reflexivity. Qed.

Example py_int_digits : py_int "1001" = IntValue 1001.
Proof. vm_compute. reflexivity. Qed.

Example py_int_signed : py_int "-5" = IntValue (-5).
Proof. vm_compute. reflexivity. Qed.

Example py_int_leading_zeros : py_int "+007" = IntValue 7.
Proof. vm_compute. reflexivity. Qed.

Example py_int_underscore : py_int "1_000" = IntValue 1000.
Proof. vm_compute. reflexivity. Qed.

Example py_int_bad_underscore : py_int "1__0" = InvalidLiteral.
Proof. vm_compute. reflexivity. Qed.

Example py_int_word : py_int "abc" = InvalidLiteral.
Proof. vm_compute. reflexivity. Qed.

Example py_int_sign_only : py_int "+" = InvalidLiteral.
Proof. vm_compute. reflexivity. Qed.

Example py_int_too_many_digits :
  py_int (String.concat "" (replicate 4301 "1")) = DigitLimit 4301.
Proof. vm_compute. reflexivity. Qed.

(** The digits are counted before what follows them is looked at. *)
Example py_int_too_many_digits_first :
  py_int (String.concat "" (replicate 4301 "1") +:+ "x") = DigitLimit 4301.
Proof. vm_compute. reflexivity. Qed.

Example py_int_trailing_letter : py_int "12x" = InvalidLiteral.
Proof. vm_compute. reflexivity. Qed.

Example py_int_white_space :
  py_int (String "009"%char "12" +:+ String "010"%char "") = IntValue 12.
Proof. vm_compute. reflexivity. Qed.

(** The separators 28 to 31 are white space for [strip], not for [int]. *)
Example py_int_separator :
  py_int (String "028"%char "12") = InvalidLiteral ∧
  strip (String "028"%char "12") = "12".
Proof. split; vm_compute; reflexivity. Qed.

Example invalid_report_format_message :
  message (InvalidReportFormat 12)
  = "Invalid report format at line 12: expected 4 fields".
Proof. vm_compute. reflexivity. Qed.

Example negative_station_id :
  parse_text ["[Stations]"; "-1 5"] = Raise (StationIdOutOfRange 2).
Proof. vm_compute. reflexivity. Qed.

Example data_before_header :
  parse_text ["0 1001"; "[Stations]"] = Raise (DataBeforeHeader 1).
Proof. vm_compute. reflexivity. Qed.

(** ** The script on examples *)

Example main_input_2 :
  main (λ _, FileLines
          ["[Stations]"; "1 1"; "0 0"; ""; "[Charger Availability Reports]";
           "0 10 20 true"; "0 20 30 false"; "0 30 40 true"; "1 0 1 true"])
       ["station_uptime.py"; "input_2.txt"]
  = Run ["0 66"; "1 100"] [] Returns.
Proof. vm_compute. reflexivity. Qed.

Example main_invalid_boolean :
  main (λ _, FileLines
          ["[Stations]"; "0 1001"; ""; "[Charger Availability Reports]";
           "1001 0 100 maybe"])
       ["station_uptime.py"; "input.txt"]
  = Run ["ERROR"]
        ["Error: Invalid up value at line 5: must be 'true' or 'false'"]
        (SysExit 1).
Proof. vm_compute. reflexivity. Qed.

(** A path that [open] refuses with a [ValueError]. *)
Example main_null_byte_in_path :
  main (λ _, FileValueError "embedded null byte")
       ["station_uptime.py"; "input.txt"]
  = Run ["ERROR"] ["Error: embedded null byte"] (SysExit 1).
Proof. vm_compute. reflexivity. Qed.

Example main_usage :
  main (λ _, FileMissing) ["station_uptime.py"]
  = Run ["ERROR"] ["Usage: station_uptime.py <input_file>"] (SysExit 1).
Proof. vm_compute. reflexivity. Qed.

(** * Proofs *)

(** ** The result monad *)

Lemma bind_Ok {E A B} (f : A → outcome E B) (m : outcome E A) (b : B) :
  m ≫= f = Ok b ↔ ∃ a, m = Ok a ∧ f a = Ok b.
Proof.
  destruct m as [a|e]; simpl; split.
  - eauto.
  - by intros (? & [= ->] & ?).
  - done.
  - by intros (? & ? & ?).
Qed.

Lemma for_each_app {E S X} (body : S → X → outcome E S) s xs ys :
  for_each body s (xs ++ ys) = for_each body s xs ≫= λ s', for_each body s' ys.
Proof.
  revert s. induction xs as [|x xs IH]; intros s; simpl; [done|].
  destruct (body s x) as [s'|e]; simpl; [apply IH|done].
Qed.

(** ** The order of [sorted] *)

#[global] Instance tuple_le_total : Total tuple_le.
Proof. intros [a b] [c d]. unfold tuple_le. simpl. lia. Qed.
#[global] Instance tuple_le_trans : Transitive tuple_le.
Proof. intros [a b] [c d] [e f]. unfold tuple_le. simpl. lia. Qed.
#[global] Instance tuple_le_antisymm : AntiSymm (=) tuple_le.
Proof.
  intros [a b] [c d]. unfold tuple_le. simpl. intros ??.
  f_equal; lia.
Qed.

Lemma sorted_Permutation l : sorted l ≡ₚ l.
Proof. apply merge_sort_Permutation. Qed.

Lemma sorted_StronglySorted l : StronglySorted tuple_le (sorted l).
Proof. apply StronglySorted_merge_sort; apply _. Qed.

Lemma sorted_id l : Sorted tuple_le l → sorted l = l.
Proof.
  intros Hl. apply (Sorted_unique tuple_le); [|done|apply sorted_Permutation].
  apply Sorted_merge_sort, _.
Qed.

Lemma sorted_perm_eq l1 l2 : l1 ≡ₚ l2 → sorted l1 = sorted l2.
Proof.
  intros Hp. apply (StronglySorted_unique tuple_le);
    [apply sorted_StronglySorted..|].
  by rewrite !sorted_Permutation.
Qed.

(** ** [merge_intervals] is the sweep of the sorted list *)

Lemma list_last_snoc {A} (pre : list A) x : list_last (pre ++ [x]) = Ok x.
Proof.
  unfold list_last, list_getitem. rewrite length_app. simpl.
  replace (length pre + 1 - 1)%nat with (length pre + 0)%nat by lia.
  by rewrite lookup_app_r, Nat.add_comm, Nat.add_sub by lia.
Qed.

Lemma list_set_last_snoc {A} (pre : list A) x y :
  list_set_last (pre ++ [x]) y = Ok (pre ++ [y]).
Proof.
  unfold list_set_last.
  assert (<[(length (pre ++ [x]) - 1)%nat := y]> (pre ++ [x]) = pre ++ [y])
    as ->.
  { rewrite length_app. simpl.
    rewrite insert_app_r_alt by lia.
    by replace (length pre + 1 - 1 - length pre)%nat with 0%nat by lia. }
  by destruct pre.
Qed.

Lemma merge_step_snoc pre cur start end_ :
  merge_step (pre ++ [cur]) (start, end_) =
  Ok (if bool_decide (start ≤ cur.2)
      then pre ++ [(cur.1, cur.2 `max` end_)]
      else pre ++ [cur; (start, end_)]).
Proof.
  unfold merge_step. rewrite list_last_snoc.
  destruct cur as [last_start last_end]. simpl.
  case_bool_decide.
  - apply list_set_last_snoc.
  - by rewrite <-app_assoc.
Qed.

Lemma for_each_merge_step rest : ∀ pre cur,
  for_each merge_step (pre ++ [cur]) rest = Ok (pre ++ sweep cur rest).
Proof.
  induction rest as [|[start end_] rest IH]; intros pre cur; [done|].
  cbn [for_each sweep]. rewrite merge_step_snoc. cbn [mbind outcome_bind].
  case_bool_decide.
  - apply IH.
  - replace (pre ++ [cur; (start, end_)])
      with ((pre ++ [cur]) ++ [(start, end_)]) by (by rewrite <-app_assoc).
    rewrite IH, <-app_assoc. done.
Qed.

Lemma merge_intervals_merged_of l : merge_intervals l = Ok (merged_of l).
Proof.
  unfold merge_intervals, merged_of. case_bool_decide as Hl.
  - subst. done.
  - destruct (sorted l) as [|first rest] eqn:E.
    + exfalso. apply Hl, Permutation_nil_r.
      by rewrite <-sorted_Permutation, E.
    + simpl. rewrite drop_0. apply (for_each_merge_step rest []).
Qed.

(** ** Properties of the sweep *)

Lemma sweep_head cur rest :
  ∃ e' tl, sweep cur rest = (cur.1, e') :: tl ∧ cur.2 ≤ e'.
Proof.
  revert cur. induction rest as [|[s e] rest IH]; intros cur; simpl.
  - exists cur.2, []. by destruct cur.
  - case_bool_decide.
    + destruct (IH (cur.1, cur.2 `max` e)) as (e' & tl & -> & Hle).
      simpl in *. exists e', tl. split; [done|lia].
    + exists cur.2, (sweep (s, e) rest). by destruct cur.
Qed.

(** Every start of the output is a start of the input. *)
Lemma sweep_elem_start cur rest x :
  x ∈ sweep cur rest → x.1 = cur.1 ∨ ∃ y, y ∈ rest ∧ x.1 = y.1.
Proof.
  revert cur. induction rest as [|[s e] rest IH]; intros cur; simpl.
  - rewrite list_elem_of_singleton. intros ->. by left.
  - case_bool_decide.
    + intros [?|(y & ? & ?)]%IH; [by left|].
      right. exists y. split; [by right|done].
    + intros [->|[?|(y & ? & ?)]%IH]%elem_of_cons; [by left|..].
      * right. exists (s, e). split; [by left|done].
      * right. exists y. split; [by right|done].
Qed.

Lemma sweep_Forall_start (P : Z → Prop) cur rest :
  P cur.1 → Forall (λ iv, P iv.1) rest →
  Forall (λ iv, P iv.1) (sweep cur rest).
Proof.
  intros Hc Hr. apply Forall_forall. intros x [->|(y & Hy & ->)]%sweep_elem_start.
  - done.
  - by eapply (proj1 (Forall_forall _ _)) in Hr.
Qed.

Lemma sweep_sorted_by_start cur rest :
  sorted_by_start (cur :: rest) → sorted_by_start (sweep cur rest).
Proof.
  unfold sorted_by_start.
  revert cur. induction rest as [|[s e] rest IH]; intros cur Hs; simpl; [done|].
  apply StronglySorted_inv in Hs as [Hs Hc].
  apply StronglySorted_inv in Hs as [Hs Hse].
  apply Forall_cons in Hc as [Hcs Hc]. simpl in *.
  case_bool_decide.
  - apply IH. by constructor.
  - constructor.
    + apply IH. by constructor.
    + apply (sweep_Forall_start (λ z, cur.1 ≤ z)); done.
Qed.

Lemma sweep_strictly_apart cur rest :
  sorted_by_start (cur :: rest) → strictly_apart (sweep cur rest).
Proof.
  unfold sorted_by_start, strictly_apart.
  revert cur. induction rest as [|[s e] rest IH]; intros cur Hs; simpl.
  { repeat constructor. }
  apply StronglySorted_inv in Hs as [Hs Hc].
  pose proof Hs as Hs'.
  apply StronglySorted_inv in Hs as [Hs Hse].
  apply Forall_cons in Hc as [Hcs Hc]. simpl in *.
  case_bool_decide.
  - apply IH. by constructor.
  - constructor.
    + by apply IH.
    + apply (sweep_Forall_start (λ z, cur.2 < z)); simpl; [lia|].
      eapply Forall_impl; [exact Hse|]. simpl. lia.
Qed.

Lemma covers_cons iv l t :
  covers (iv :: l) t ↔ iv.1 ≤ t < iv.2 ∨ covers l t.
Proof. unfold covers. apply Exists_cons. Qed.

Lemma covers_nil t : ¬ covers [] t.
Proof. unfold covers. by intros ?%Exists_nil. Qed.

Lemma covers_Permutation l1 l2 t : l1 ≡ₚ l2 → covers l1 t ↔ covers l2 t.
Proof. unfold covers. by intros ->. Qed.

Lemma sweep_covers cur rest t :
  sorted_by_start (cur :: rest) →
  covers (sweep cur rest) t ↔ covers (cur :: rest) t.
Proof.
  unfold sorted_by_start.
  revert cur. induction rest as [|[s e] rest IH]; intros cur Hs; simpl; [done|].
  apply StronglySorted_inv in Hs as [Hs Hc].
  pose proof Hs as Hs'.
  apply StronglySorted_inv in Hs as [Hs Hse].
  apply Forall_cons in Hc as [Hcs Hc]. simpl in *.
  case_bool_decide.
  - rewrite IH by by constructor.
    rewrite !covers_cons. simpl.
    assert (cur.1 ≤ t < cur.2 `max` e ↔ cur.1 ≤ t < cur.2 ∨ s ≤ t < e)
      by lia.
    tauto.
  - rewrite covers_cons, IH by done. by rewrite !covers_cons.
Qed.

Lemma sweep_lex_sorted cur rest :
  StronglySorted tuple_le (cur :: rest) → Sorted tuple_le (sweep cur rest).
Proof.
  revert cur. induction rest as [|[s e] rest IH]; intros cur Hs; simpl.
  { repeat constructor. }
  apply StronglySorted_inv in Hs as [Hs Hc].
  pose proof Hs as Hs'.
  apply StronglySorted_inv in Hs as [Hs Hse].
  apply Forall_cons in Hc as [Hcs Hc].
  case_bool_decide as Hov.
  - apply IH. constructor; [done|].
    apply Forall_forall. intros x Hx.
    eapply (proj1 (Forall_forall _ _)) in Hse; [|done].
    destruct cur, x. unfold tuple_le in *. simpl in *. lia.
  - constructor; [by apply IH|].
    destruct (sweep_head (s, e) rest) as (e' & tl & -> & Hle).
    constructor. destruct cur. unfold tuple_le in *. simpl in *. lia.
Qed.

Lemma sweep_fixed cur rest :
  Sorted (λ a b : interval, a.2 < b.1) (cur :: rest) →
  sweep cur rest = cur :: rest.
Proof.
  revert cur. induction rest as [|[s e] rest IH]; intros cur Hs; simpl; [done|].
  apply Sorted_inv in Hs as [Hs Hhd]. apply HdRel_inv in Hhd. simpl in *.
  rewrite bool_decide_false by lia. by rewrite IH.
Qed.

Lemma sweep_within lo hi cur rest :
  Forall (within lo hi) (cur :: rest) → Forall (within lo hi) (sweep cur rest).
Proof.
  revert cur. induction rest as [|[s e] rest IH]; intros cur Hs; simpl; [done|].
  apply Forall_cons in Hs as [Hc Hs]. apply Forall_cons in Hs as [Hse Hs].
  case_bool_decide.
  - apply IH. constructor; [|done]. unfold within in *. simpl in *. lia.
  - constructor; [done|]. apply IH. by constructor.
Qed.

(** ** Counting instants *)

Section measure.
Context (P Q : Z → Prop) `{!∀ t, Decision (P t), !∀ t, Decision (Q t)}.

Lemma length_filter_ext (l : list Z) :
  (∀ t, t ∈ l → P t ↔ Q t) → length (filter P l) = length (filter Q l).
Proof.
  induction l as [|x l IH]; intros Hl; [done|].
  rewrite !filter_cons.
  assert (P x ↔ Q x) by (apply Hl; by left).
  assert (length (filter P l) = length (filter Q l)) as IH'
    by (apply IH; intros; apply Hl; by right).
  repeat case_decide; simpl; rewrite ?IH'; tauto || done.
Qed.

Lemma length_filter_or (l : list Z) :
  (∀ t, P t → Q t → False) →
  length (filter (λ t, P t ∨ Q t) l)
  = (length (filter P l) + length (filter Q l))%nat.
Proof.
  intros Hdis. induction l as [|x l IH]; [done|].
  rewrite !filter_cons.
  specialize (Hdis x).
  destruct (decide (P x)), (decide (Q x)), (decide (P x ∨ Q x));
    simpl; rewrite ?IH; try lia; tauto.
Qed.

Lemma measure_ext lo hi :
  (∀ t, lo ≤ t < hi → P t ↔ Q t) → measure P lo hi = measure Q lo hi.
Proof.
  intros Hpq. unfold measure. f_equal. apply length_filter_ext.
  intros t Ht%elem_of_seqZ. apply Hpq. lia.
Qed.

Lemma measure_or lo hi :
  (∀ t, P t → Q t → False) →
  measure (λ t, P t ∨ Q t) lo hi = measure P lo hi + measure Q lo hi.
Proof.
  intros Hpq. unfold measure. rewrite length_filter_or by done. lia.
Qed.

Lemma measure_bounds lo hi : 0 ≤ measure P lo hi ≤ Z.max 0 (hi - lo).
Proof.
  unfold measure. pose proof (length_filter P (seqZ lo (hi - lo))) as Hlen.
  rewrite length_seqZ in Hlen. lia.
Qed.
End measure.

Lemma length_filter_all (P : Z → Prop) `{!∀ t, Decision (P t)} l :
  Forall P l → length (filter P l) = length l.
Proof.
  induction 1 as [|x l Hx Hl IH]; [done|].
  rewrite filter_cons_True by done. simpl. by rewrite IH.
Qed.

Lemma length_filter_none (P : Z → Prop) `{!∀ t, Decision (P t)} l :
  Forall (λ t, ¬ P t) l → length (filter P l) = 0%nat.
Proof.
  induction 1 as [|x l Hx Hl IH]; [done|].
  by rewrite filter_cons_False.
Qed.

Lemma measure_interval lo hi s e :
  lo ≤ s → s ≤ e → e ≤ hi → measure (λ t, s ≤ t < e) lo hi = e - s.
Proof.
  intros Hlo Hse Hhi. unfold measure.
  replace (hi - lo) with ((s - lo) + ((e - s) + (hi - e))) by lia.
  rewrite !seqZ_app, !filter_app, !length_app by lia.
  rewrite (length_filter_none _ (seqZ lo _)), (length_filter_none _ (seqZ (_ + _ + _) _)).
  - rewrite length_filter_all, length_seqZ; [lia|].
    apply Forall_seqZ. lia.
  - apply Forall_seqZ. lia.
  - apply Forall_seqZ. lia.
Qed.

(** ** [calculate_total_time] *)

Lemma total_time_acc (l : list interval) (a : Z) :
  foldl (λ acc '(start, end_), acc + (end_ - start)) a l
  = a + calculate_total_time l.
Proof.
  unfold calculate_total_time. revert a.
  induction l as [|[s e] l IH]; intros a; simpl; [lia|].
  rewrite (IH (a + (e - s))), (IH (0 + (e - s))). lia.
Qed.

Lemma calculate_total_time_cons iv l :
  calculate_total_time (iv :: l) = (iv.2 - iv.1) + calculate_total_time l.
Proof.
  unfold calculate_total_time at 1. destruct iv as [s e]. simpl.
  by rewrite total_time_acc.
Qed.

(** The sum of [end - start] over a list of well-formed intervals that are
    strictly apart is the number of instants the list covers. *)
Lemma calculate_total_time_measure lo hi l :
  strictly_apart l → Forall (within lo hi) l →
  calculate_total_time l = measure (covers l) lo hi.
Proof.
  unfold strictly_apart. intros Hs Hw.
  induction l as [|[s e] l IH].
  - unfold measure. rewrite length_filter_none; [done|].
    apply Forall_forall. intros t _. apply covers_nil.
  - apply StronglySorted_inv in Hs as [Hs Hhd].
    apply Forall_cons in Hw as [(? & ? & ?) Hw]. simpl in *.
    rewrite calculate_total_time_cons, IH by done. simpl.
    rewrite (measure_ext (covers ((s, e) :: l))
               (λ t, s ≤ t < e ∨ covers l t)).
    2:{ intros t _. apply covers_cons. }
    rewrite measure_or.
    2:{ intros t ? (iv & Hiv & ?)%Exists_exists.
        eapply (proj1 (Forall_forall _ _)) in Hhd; [|done]. simpl in *. lia. }
    by rewrite measure_interval.
Qed.

(** ** Minimum and maximum by a left fold *)

Lemma foldl_min_le (l : list Z) (a : Z) :
  foldl Z.min a l ≤ a ∧ Forall (λ x, foldl Z.min a l ≤ x) l.
Proof.
  revert a. induction l as [|x l IH]; intros a; simpl; [by split|].
  destruct (IH (a `min` x)) as [Ha Hl]. split; [lia|].
  constructor; [lia|done].
Qed.

Lemma foldl_max_ge (l : list Z) (a : Z) :
  a ≤ foldl Z.max a l ∧ Forall (λ x, x ≤ foldl Z.max a l) l.
Proof.
  revert a. induction l as [|x l IH]; intros a; simpl; [by split|].
  destruct (IH (a `max` x)) as [Ha Hl]. split; [lia|].
  constructor; [lia|done].
Qed.

Lemma foldl_min_elem (l : list Z) (a : Z) : foldl Z.min a l ∈ a :: l.
Proof.
  revert a. induction l as [|x l IH]; intros a; simpl; [by left|].
  specialize (IH (a `min` x)).
  apply elem_of_cons in IH as [->|?]; [|by do 2 right].
  destruct (Z.min_spec a x) as [[_ ->]|[_ ->]]; [by left|by right; left].
Qed.

Lemma foldl_max_elem (l : list Z) (a : Z) : foldl Z.max a l ∈ a :: l.
Proof.
  revert a. induction l as [|x l IH]; intros a; simpl; [by left|].
  specialize (IH (a `max` x)).
  apply elem_of_cons in IH as [->|?]; [|by do 2 right].
  destruct (Z.max_spec a x) as [[_ ->]|[_ ->]]; [by right; left|by left].
Qed.

Lemma foldl_min_Permutation (l1 l2 : list Z) (a : Z) :
  l1 ≡ₚ l2 → foldl Z.min a l1 = foldl Z.min a l2.
Proof.
  intros Hp. revert a.
  induction Hp as [|x l1 l2 _ IH|x y l|l1 l2 l3 _ IH1 _ IH2]; intros a; simpl.
  - done.
  - apply IH.
  - f_equal. lia.
  - by rewrite IH1.
Qed.

Lemma foldl_max_Permutation (l1 l2 : list Z) (a : Z) :
  l1 ≡ₚ l2 → foldl Z.max a l1 = foldl Z.max a l2.
Proof.
  intros Hp. revert a.
  induction Hp as [|x l1 l2 _ IH|x y l|l1 l2 l3 _ IH1 _ IH2]; intros a; simpl.
  - done.
  - apply IH.
  - f_equal. lia.
  - by rewrite IH1.
Qed.

(** ** The merged list *)

Lemma StronglySorted_weaken {A} (R R' : relation A) l :
  (∀ a b, R a b → R' a b) → StronglySorted R l → StronglySorted R' l.
Proof.
  intros HR. induction 1 as [|x l Hl IH Hx]; constructor; [done|].
  eapply Forall_impl; [done|]. eauto.
Qed.

Lemma sorted_sorted_by_start l : sorted_by_start (sorted l).
Proof.
  eapply StronglySorted_weaken; [|apply sorted_StronglySorted].
  intros [a b] [c d]. unfold tuple_le. simpl. lia.
Qed.

Lemma merged_of_sorted_by_start l : sorted_by_start (merged_of l).
Proof.
  unfold merged_of. pose proof (sorted_sorted_by_start l) as Hs.
  destruct (sorted l); [constructor|]. by apply sweep_sorted_by_start.
Qed.

Lemma merged_of_strictly_apart l : strictly_apart (merged_of l).
Proof.
  unfold merged_of. pose proof (sorted_sorted_by_start l) as Hs.
  destruct (sorted l); [constructor|]. by apply sweep_strictly_apart.
Qed.

Lemma merged_of_covers l t : covers (merged_of l) t ↔ covers l t.
Proof.
  rewrite <-(covers_Permutation _ _ t (sorted_Permutation l)).
  unfold merged_of. pose proof (sorted_sorted_by_start l) as Hs.
  destruct (sorted l); [done|]. by apply sweep_covers.
Qed.

Lemma merged_of_within lo hi l :
  Forall (within lo hi) l → Forall (within lo hi) (merged_of l).
Proof.
  intros Hl. rewrite <-(sorted_Permutation l) in Hl.
  unfold merged_of. destruct (sorted l); [done|]. by apply sweep_within.
Qed.

Lemma merged_of_fixed l :
  Sorted tuple_le l → Sorted (λ a b : interval, a.2 < b.1) l →
  merged_of l = l.
Proof.
  intros Hlex Hap. unfold merged_of. rewrite sorted_id by done.
  destruct l; [done|]. by apply sweep_fixed.
Qed.

Lemma merged_of_idemp l : merged_of (merged_of l) = merged_of l.
Proof.
  apply merged_of_fixed.
  - unfold merged_of. pose proof (sorted_StronglySorted l) as Hs.
    destruct (sorted l); [constructor|]. by apply sweep_lex_sorted.
  - apply StronglySorted_Sorted, merged_of_strictly_apart.
Qed.

(** The total time of the merged list is the measure of the union, over
    any window that contains the (well-formed) intervals. *)
Lemma merged_of_total_time lo hi l :
  Forall (within lo hi) l →
  calculate_total_time (merged_of l) = measure (covers l) lo hi.
Proof.
  intros Hl.
  rewrite (calculate_total_time_measure lo hi).
  - apply measure_ext. intros t _. apply merged_of_covers.
  - apply merged_of_strictly_apart.
  - by apply merged_of_within.
Qed.

Lemma hull_within s e (l : list interval) :
  Forall interval_wf ((s, e) :: l) →
  Forall (within (foldl Z.min s l.*1) (foldl Z.max e l.*2)) ((s, e) :: l).
Proof.
  intros Hwf.
  destruct (foldl_min_le l.*1 s) as [Hs Hmin].
  destruct (foldl_max_ge l.*2 e) as [He Hmax].
  rewrite Forall_fmap in Hmin, Hmax.
  apply Forall_cons in Hwf as [Hse Hwf]. unfold interval_wf in *.
  constructor; [unfold within; simpl in *; lia|].
  apply Forall_forall. intros iv Hiv.
  eapply (proj1 (Forall_forall _ _)) in Hmin, Hmax, Hwf; [|done..].
  unfold within. simpl in *. lia.
Qed.

Lemma merged_of_union_length l :
  Forall interval_wf l → calculate_total_time (merged_of l) = union_length l.
Proof.
  intros Hwf. destruct l as [|[s e] l]; [done|].
  unfold union_length. by apply merged_of_total_time, hull_within.
Qed.

(** The length of the union does not depend on the window it is counted
    in, as long as the window contains the intervals. *)
Lemma union_length_window lo hi l :
  Forall (within lo hi) l → union_length l = measure (covers l) lo hi.
Proof.
  intros Hl. rewrite <-merged_of_union_length, (merged_of_total_time lo hi);
    [done..|].
  eapply Forall_impl; [done|]. by intros iv (? & ? & ?).
Qed.

Lemma merge_touching a b c :
  a ≤ b ≤ c → merge_intervals [(a, b); (b, c)] = Ok [(a, c)].
Proof.
  intros [Hab Hbc]. rewrite merge_intervals_merged_of. f_equal.
  unfold merged_of. rewrite sorted_id.
  - simpl. rewrite bool_decide_true by lia. by rewrite Z.max_r.
  - apply Sorted_cons; [by repeat apply Sorted_cons|].
    apply HdRel_cons. unfold tuple_le. simpl. lia.
Qed.

(** ** [calculate_station_uptime]: the three loops *)

Lemma station_uptime_uptime_of l : station_uptime l = Ok (uptime_of l).
Proof.
  unfold station_uptime, uptime_of. destruct l as [|r l]; [done|].
  rewrite bool_decide_false by done. cbn [fmap list_fmap py_min py_max].
  cbn [mbind outcome_bind]. rewrite merge_intervals_merged_of.
  cbn [mbind outcome_bind]. case_bool_decide; [done|].
  unfold py_floordiv. by rewrite bool_decide_false.
Qed.

Lemma insert_chargers_lookup (cs : list Z) (sid : Z) (m : gmap Z Z) (c : Z) :
  foldl (λ c2s' charger_id, <[charger_id := sid]> c2s') m cs !! c
  = if decide (c ∈ cs) then Some sid else m !! c.
Proof.
  revert m. induction cs as [|c' cs IH]; intros m; cbn [foldl].
  - case_decide as Hin; [by apply elem_of_nil in Hin|done].
  - rewrite IH. rewrite (decide_ext (c ∈ c' :: cs) (c = c' ∨ c ∈ cs))
      by apply elem_of_cons.
    destruct (decide (c ∈ cs)) as [Hin|Hnin].
    + rewrite decide_True; [done|]. by right.
    + destruct (decide (c = c')) as [->|Hne].
      * rewrite lookup_insert_eq, decide_True; [done|]. by left.
      * rewrite lookup_insert_ne by done. rewrite decide_False; [done|].
        by intros [?|?].
Qed.

Lemma charger_to_station_acc stations (m : gmap Z Z) c sid :
  foldl (λ c2s '(station_id, charger_ids),
           foldl (λ c2s' charger_id, <[charger_id := station_id]> c2s')
                 c2s charger_ids) m stations !! c = Some sid →
  owns stations sid c ∨ m !! c = Some sid.
Proof.
  revert m. induction stations as [|[s cs] stations IH]; intros m; simpl.
  { by right. }
  intros [Ho|Hm]%IH.
  - left. by apply Exists_cons_tl.
  - rewrite insert_chargers_lookup in Hm. case_decide.
    + left. apply Exists_cons_hd. simpl. split; congruence.
    + by right.
Qed.

Lemma charger_to_station_acc_known stations (m : gmap Z Z) c :
  (∃ sid, owns stations sid c) ∨ is_Some (m !! c) →
  is_Some (foldl (λ c2s '(station_id, charger_ids),
           foldl (λ c2s' charger_id, <[charger_id := station_id]> c2s')
                 c2s charger_ids) m stations !! c).
Proof.
  revert m. induction stations as [|[s cs] stations IH]; intros m; simpl.
  { intros [[sid Ho]|?]; [|done]. by apply Exists_nil in Ho. }
  intros [[sid Ho]|Hm]; apply IH.
  - apply Exists_cons in Ho as [[_ Hc]|Ho]; [|left; eauto]. simpl in Hc.
    right. rewrite insert_chargers_lookup. by rewrite decide_True.
  - right. rewrite insert_chargers_lookup. by case_decide.
Qed.

Lemma charger_to_station_owns stations c sid :
  build_charger_to_station stations !! c = Some sid → owns stations sid c.
Proof.
  intros [?|Hm]%charger_to_station_acc; [done|].
  by rewrite lookup_empty in Hm.
Qed.

Lemma listed_owns stations c : listed stations c ↔ ∃ sid, owns stations sid c.
Proof.
  unfold listed, owns. rewrite Exists_exists. split.
  - intros (item & Hin & Hc). exists item.1. apply Exists_exists. eauto.
  - intros (sid & (item & Hin & _ & Hc)%Exists_exists). eauto.
Qed.

Lemma charger_to_station_known stations c :
  is_Some (build_charger_to_station stations !! c) ↔ listed stations c.
Proof.
  rewrite listed_owns. split.
  - intros [sid Hs]. exists sid. by apply charger_to_station_owns.
  - intros Ho. apply charger_to_station_acc_known. by left.
Qed.

Lemma charger_to_station_unique stations c sid :
  chargers_unique stations →
  build_charger_to_station stations !! c = Some sid ↔ owns stations sid c.
Proof.
  intros Hu. split; [apply charger_to_station_owns|].
  intros Ho.
  destruct (proj2 (charger_to_station_known stations c)) as [sid' Hs].
  { apply listed_owns. eauto. }
  rewrite Hs. f_equal. apply (Hu c); [|done].
  by apply charger_to_station_owns.
Qed.

Lemma owns_key stations sid c : owns stations sid c → sid ∈ stations.*1.
Proof.
  intros (item & Hin & <- & _)%Exists_exists. by apply list_elem_of_fmap_2.
Qed.

Lemma empty_station_reports_lookup stations sid :
  empty_station_reports stations !! sid
  = if decide (sid ∈ stations.*1) then Some [] else None.
Proof.
  unfold empty_station_reports.
  assert (∀ (ks : list Z) (d : gmap Z (list (Z * Z * bool))),
    foldl (λ d sid, <[sid := []]> d) d ks !! sid
    = if decide (sid ∈ ks) then Some [] else d !! sid) as Hgen.
  { induction ks as [|k ks IH]; intros d; cbn [foldl].
    - case_decide as Hin; [by apply elem_of_nil in Hin|done].
    - rewrite IH. rewrite (decide_ext (sid ∈ k :: ks) (sid = k ∨ sid ∈ ks))
        by apply elem_of_cons.
      destruct (decide (sid ∈ ks)).
      + rewrite decide_True; [done|]. by right.
      + destruct (decide (sid = k)) as [->|].
        * rewrite lookup_insert_eq, decide_True; [done|]. by left.
        * rewrite lookup_insert_ne by done. rewrite decide_False; [done|].
          by intros [?|?]. }
  by rewrite Hgen, lookup_empty.
Qed.

Lemma group_loop (c2s : gmap Z Z) reports :
  ∀ d : gmap Z (list (Z * Z * bool)),
  Forall (λ r, ∃ sid, c2s !! charger_of r = Some sid ∧ is_Some (d !! sid))
         reports →
  ∃ d', for_each (group_step c2s) d reports = Ok d' ∧
        ∀ sid, d' !! sid = (λ l, l ++ grouped c2s sid reports) <$> d !! sid.
Proof.
  induction reports as [|[[[c s] e] u] reports IH]; intros d Hk.
  { exists d. split; [done|]. intros sid. unfold grouped. simpl.
    destruct (d !! sid); simpl; [|done]. by rewrite app_nil_r. }
  apply Forall_cons in Hk as [(sid0 & Hc & [l Hl]) Hk].
  unfold charger_of in Hc. simpl in Hc.
  destruct (IH (<[sid0 := l ++ [(s, e, u)]]> d)) as (d' & Hd' & Hlook).
  { eapply Forall_impl; [exact Hk|]. intros r (sid & ? & Hd).
    exists sid. split; [done|]. by rewrite lookup_insert_is_Some'; right. }
  exists d'. split.
  { cbn [for_each group_step]. unfold dict_getitem. rewrite Hc.
    cbn [mbind outcome_bind]. rewrite Hl. cbn [mbind outcome_bind]. done. }
  intros sid. rewrite Hlook. unfold grouped. rewrite filter_cons.
  change (charger_of (c, s, e, u)) with c. rewrite Hc.
  destruct (decide (sid0 = sid)) as [->|Hne].
  - rewrite lookup_insert_eq, Hl, decide_True by done. simpl.
    by rewrite <-app_assoc.
  - rewrite lookup_insert_ne by done. rewrite decide_False by congruence.
    done.
Qed.

Lemma group_loop_inv (c2s : gmap Z Z) reports :
  ∀ d d' : gmap Z (list (Z * Z * bool)),
  for_each (group_step c2s) d reports = Ok d' →
  Forall (λ r, is_Some (c2s !! charger_of r)) reports.
Proof.
  induction reports as [|[[[c s] e] u] reports IH]; intros d d' Hd.
  { constructor. }
  cbn [for_each] in Hd. apply bind_Ok in Hd as (d1 & Hstep & Hd).
  constructor; [|by eapply IH].
  unfold group_step, dict_getitem, charger_of in *. simpl.
  by destruct (c2s !! c).
Qed.

Lemma uptime_loop (sr : gmap Z (list (Z * Z * bool))) stations :
  ∀ m0 : gmap Z Z,
  Forall (λ item : Z * list Z, is_Some (sr !! item.1)) stations →
  ∃ m, for_each (uptime_step sr) m0 stations = Ok m ∧
       ∀ sid, m !! sid = if decide (sid ∈ stations.*1)
                         then uptime_of <$> sr !! sid else m0 !! sid.
Proof.
  induction stations as [|[s cs] stations IH]; intros m0 Hs.
  { exists m0. split; [done|]. intros sid.
    case_decide as Hin; [by apply elem_of_nil in Hin|done]. }
  apply Forall_cons in Hs as [[l Hl] Hs]. simpl in Hl.
  destruct (IH (<[s := uptime_of l]> m0) Hs) as (m & Hm & Hlook).
  exists m. split.
  { cbn [for_each uptime_step]. unfold dict_getitem. rewrite Hl.
    cbn [mbind outcome_bind]. rewrite station_uptime_uptime_of.
    cbn [mbind outcome_bind]. done. }
  intros sid. rewrite Hlook. cbn [fmap list_fmap fst].
  rewrite (decide_ext (sid ∈ s :: stations.*1) (sid = s ∨ sid ∈ stations.*1))
    by apply elem_of_cons.
  destruct (decide (sid ∈ stations.*1)).
  - rewrite decide_True; [done|]. by right.
  - destruct (decide (sid = s)) as [->|].
    + rewrite lookup_insert_eq, decide_True, Hl; [done|]. by left.
    + rewrite lookup_insert_ne by done. rewrite decide_False; [done|].
      by intros [?|?].
Qed.

(** The result of [calculate_station_uptime], entry by entry. *)
Lemma calculate_station_uptime_Ok stations reports :
  chargers_known stations reports →
  ∃ uptimes, calculate_station_uptime stations reports = Ok uptimes ∧
    ∀ sid, uptimes !! sid =
      if decide (sid ∈ stations.*1)
      then Some (uptime_of
                   (grouped (build_charger_to_station stations) sid reports))
      else None.
Proof.
  intros Hk. unfold calculate_station_uptime.
  destruct (group_loop (build_charger_to_station stations) reports
              (empty_station_reports stations)) as (sr & -> & Hsr).
  { eapply Forall_impl; [exact Hk|]. intros r Hr.
    apply charger_to_station_known in Hr as [sid Hsid].
    exists sid. split; [done|].
    rewrite empty_station_reports_lookup, decide_True; [done|].
    eapply owns_key, charger_to_station_owns, Hsid. }
  cbn [mbind outcome_bind].
  destruct (uptime_loop sr stations ∅) as (m & -> & Hm).
  { apply Forall_forall. intros item Hin.
    rewrite Hsr, empty_station_reports_lookup, decide_True; [done|].
    by apply list_elem_of_fmap_2. }
  exists m. split; [done|]. intros sid. rewrite Hm.
  case_decide; [|done].
  by rewrite Hsr, empty_station_reports_lookup, decide_True.
Qed.

Lemma calculate_station_uptime_inv stations reports uptimes :
  calculate_station_uptime stations reports = Ok uptimes →
  chargers_known stations reports.
Proof.
  unfold calculate_station_uptime.
  intros (sr & Hsr%group_loop_inv & _)%bind_Ok.
  eapply Forall_impl; [exact Hsr|]. intros r.
  apply charger_to_station_known.
Qed.

(** ** The uptime of one station *)

Lemma is_min_foldl (a : Z) (l : list Z) : is_min (foldl Z.min a l) (a :: l).
Proof.
  split; [apply foldl_min_elem|].
  destruct (foldl_min_le l a). by constructor.
Qed.

Lemma is_max_foldl (a : Z) (l : list Z) : is_max (foldl Z.max a l) (a :: l).
Proof.
  split; [apply foldl_max_elem|].
  destruct (foldl_max_ge l a). by constructor.
Qed.

Lemma is_min_unique lo lo' l : is_min lo l → is_min lo' l → lo = lo'.
Proof.
  intros [Hin Hle] [Hin' Hle'].
  pose proof (proj1 (Forall_forall _ _) Hle _ Hin').
  pose proof (proj1 (Forall_forall _ _) Hle' _ Hin). simpl in *. lia.
Qed.

Lemma is_max_unique hi hi' l : is_max hi l → is_max hi' l → hi = hi'.
Proof.
  intros [Hin Hle] [Hin' Hle'].
  pose proof (proj1 (Forall_forall _ _) Hle _ Hin').
  pose proof (proj1 (Forall_forall _ _) Hle' _ Hin). simpl in *. lia.
Qed.

Lemma is_min_Permutation lo l1 l2 : l1 ≡ₚ l2 → is_min lo l1 → is_min lo l2.
Proof. unfold is_min. by intros ->. Qed.

Lemma is_max_Permutation hi l1 l2 : l1 ≡ₚ l2 → is_max hi l1 → is_max hi l2.
Proof. unfold is_max. by intros ->. Qed.

Lemma collect_up_filter (l : list (Z * Z * bool)) :
  collect_up l = (λ t, (t.1.1, t.1.2)) <$> filter (λ t, t.2 = true) l.
Proof.
  unfold collect_up.
  assert (∀ acc,
    foldl (λ up '(start_time, end_time, is_up),
             if is_up : bool then up ++ [(start_time, end_time)] else up)
          acc l
    = acc ++ ((λ t, (t.1.1, t.1.2)) <$> filter (λ t, t.2 = true) l)) as Hgen.
  { induction l as [|[[s e] u] l IH]; intros acc; cbn [foldl].
    - by rewrite app_nil_r.
    - rewrite IH, filter_cons. destruct u; simpl; [|done].
      by rewrite <-app_assoc. }
  apply (Hgen []).
Qed.

Lemma collect_up_reports (rs : list report) :
  collect_up (triple_of <$> rs) = up_intervals_of rs.
Proof.
  rewrite collect_up_filter. unfold up_intervals_of.
  induction rs as [|[[[c s] e] u] rs IH]; [done|].
  cbn [fmap list_fmap]. destruct u.
  - rewrite !filter_cons_True by done. cbn [fmap list_fmap]. by f_equal.
  - by rewrite !filter_cons_False by done.
Qed.

Lemma uptime_of_window l lo hi :
  is_min lo ((λ r, r.1.1) <$> l) → is_max hi ((λ r, r.1.2) <$> l) →
  uptime_of l =
    if bool_decide (hi - lo = 0) then 0
    else (calculate_total_time (merged_of (collect_up l)) * 100)
           `div` (hi - lo).
Proof.
  intros Hlo Hhi. destruct l as [|r l].
  { destruct Hlo as [Hin _]. by apply elem_of_nil in Hin. }
  unfold uptime_of. cbn [fmap list_fmap] in *.
  rewrite <-(is_min_unique _ _ _ (is_min_foldl _ _) Hlo).
  rewrite <-(is_max_unique _ _ _ (is_max_foldl _ _) Hhi).
  done.
Qed.

Lemma uptime_of_Permutation l1 l2 : l1 ≡ₚ l2 → uptime_of l1 = uptime_of l2.
Proof.
  intros Hp. destruct l1 as [|r l1].
  { apply Permutation_nil_l in Hp. by subst. }
  pose proof (is_min_foldl r.1.1 ((λ r, r.1.1) <$> l1)) as Hlo.
  pose proof (is_max_foldl r.1.2 ((λ r, r.1.2) <$> l1)) as Hhi.
  rewrite (uptime_of_window (r :: l1) _ _ Hlo Hhi).
  rewrite (uptime_of_window l2 (foldl Z.min r.1.1 ((λ r, r.1.1) <$> l1))
             (foldl Z.max r.1.2 ((λ r, r.1.2) <$> l1))).
  - assert (merged_of (collect_up (r :: l1)) = merged_of (collect_up l2)) as ->;
      [|done].
    unfold merged_of. rewrite (sorted_perm_eq _ (collect_up l2)); [done|].
    rewrite !collect_up_filter. by rewrite Hp.
  - eapply is_min_Permutation; [|exact Hlo].
    change (((λ r, r.1.1) <$> r :: l1) ≡ₚ (λ r, r.1.1) <$> l2). by rewrite Hp.
  - eapply is_max_Permutation; [|exact Hhi].
    change (((λ r, r.1.2) <$> r :: l1) ≡ₚ (λ r, r.1.2) <$> l2). by rewrite Hp.
Qed.

(** With well-formed reports the up time lies inside the window. *)
Lemma up_time_bounds (l : list (Z * Z * bool)) lo hi :
  Forall (λ t, t.1.1 ≤ t.1.2) l →
  Forall (λ x, lo ≤ x) ((λ r, r.1.1) <$> l) →
  Forall (λ x, x ≤ hi) ((λ r, r.1.2) <$> l) →
  calculate_total_time (merged_of (collect_up l))
    = measure (covers (collect_up l)) lo hi.
Proof.
  intros Hwf Hlo Hhi. apply merged_of_total_time.
  rewrite collect_up_filter. rewrite Forall_fmap in Hlo, Hhi.
  apply Forall_fmap, Forall_forall. intros t [_ Hin]%list_elem_of_filter.
  eapply (proj1 (Forall_forall _ _)) in Hwf, Hlo, Hhi; [|done..].
  unfold within. simpl in *. lia.
Qed.

Lemma floor_div (num den : Z) : den ≠ 0 → is_floor (num `div` den) num den.
Proof.
  intros Hden. unfold is_floor.
  pose proof (Z.div_mod num den Hden).
  destruct (decide (0 < den)).
  - pose proof (Z.mod_pos_bound num den ltac:(lia)). left. nia.
  - pose proof (Z.mod_neg_bound num den ltac:(lia)). right. nia.
Qed.

Lemma is_floor_pos (v num den : Z) :
  0 < den → is_floor v num den → v * den ≤ num < (v + 1) * den.
Proof. unfold is_floor. intros Hden [?|?]; [done|nia]. Qed.

Lemma percent_bounds (up total : Z) :
  0 ≤ up ≤ total → 0 < total → 0 ≤ (up * 100) `div` total ≤ 100.
Proof.
  intros Hup Htot. split.
  - apply Z.div_pos; lia.
  - apply Z.div_le_upper_bound; lia.
Qed.

Lemma grouped_reports_of stations sid reports :
  chargers_unique stations →
  grouped (build_charger_to_station stations) sid reports
  = triple_of <$> reports_of stations sid reports.
Proof.
  intros Hu. unfold grouped, reports_of. f_equal.
  apply list_filter_iff. intros r. by apply charger_to_station_unique.
Qed.

Lemma grouped_nil stations sid reports :
  reports_of stations sid reports = [] →
  grouped (build_charger_to_station stations) sid reports = [].
Proof.
  unfold grouped, reports_of. intros Hnil.
  induction reports as [|r reports IH]; [done|].
  rewrite filter_cons in Hnil. rewrite filter_cons.
  destruct (decide (owns stations sid (charger_of r))) as [|Hno]; [done|].
  rewrite decide_False; [by apply IH|].
  intros Hc. by apply Hno, charger_to_station_owns.
Qed.

Lemma chargers_distinct_unique stations :
  chargers_distinct stations → chargers_unique stations.
Proof.
  unfold chargers_distinct, chargers_unique, owns.
  induction stations as [|[s cs] stations IH]; intros Hnd c s1 s2 H1 H2.
  { by apply Exists_nil in H1. }
  cbn [fmap list_fmap snd mjoin list_join] in Hnd.
  apply NoDup_app in Hnd as (_ & Hdis & Hnd).
  assert (∀ sid, Exists (λ item : Z * list Z, item.1 = sid ∧ c ∈ item.2)
                        stations → c ∈ mjoin stations.*2) as Hin.
  { intros sid (item & Hitem & _ & Hc)%Exists_exists.
    apply list_elem_of_join. exists item.2. split; [done|].
    by apply list_elem_of_fmap_2. }
  apply Exists_cons in H1 as [[<- Hc1]|H1], H2 as [[<- Hc2]|H2]; simpl in *.
  - done.
  - destruct (Hdis c); eauto.
  - destruct (Hdis c); eauto.
  - by apply (IH Hnd c).
Qed.

Lemma uptime_of_reports (rs : list report) lo hi :
  is_min lo (start_of <$> rs) → is_max hi (end_of <$> rs) →
  uptime_of (triple_of <$> rs) =
    if bool_decide (hi - lo = 0) then 0
    else (calculate_total_time (merged_of (up_intervals_of rs)) * 100)
           `div` (hi - lo).
Proof.
  intros Hlo Hhi. rewrite (uptime_of_window _ lo hi).
  - by rewrite <-collect_up_reports.
  - by rewrite <-list_fmap_compose.
  - by rewrite <-list_fmap_compose.
Qed.

Lemma up_intervals_within (rs : list report) lo hi :
  Forall (λ r, start_of r ≤ end_of r) rs →
  Forall (λ x, lo ≤ x) (start_of <$> rs) →
  Forall (λ x, x ≤ hi) (end_of <$> rs) →
  Forall (within lo hi) (up_intervals_of rs).
Proof.
  intros Hwf Hlo Hhi. rewrite Forall_fmap in Hlo, Hhi.
  unfold up_intervals_of.
  apply Forall_fmap, Forall_forall. intros r [_ Hin]%list_elem_of_filter.
  eapply (proj1 (Forall_forall _ _)) in Hwf, Hlo, Hhi; [|done..].
  unfold within. simpl in *. lia.
Qed.

Lemma valid_reports_window (rs : list report) lo hi :
  Forall (λ r, start_of r < end_of r) rs →
  is_min lo (start_of <$> rs) → is_max hi (end_of <$> rs) →
  lo < hi ∧
  0 ≤ union_length (up_intervals_of rs) ≤ hi - lo ∧
  calculate_total_time (merged_of (up_intervals_of rs))
    = union_length (up_intervals_of rs).
Proof.
  intros Hv [Hlo_in Hlo] [Hhi_in Hhi].
  assert (Forall (λ r, start_of r ≤ end_of r) rs) as Hwf.
  { eapply Forall_impl; [exact Hv|]. simpl. lia. }
  assert (lo < hi) as Hlt.
  { apply list_elem_of_fmap in Hlo_in as (r & -> & Hr).
    eapply (proj1 (Forall_forall _ _)) in Hv; [|done].
    rewrite Forall_fmap in Hhi.
    eapply (proj1 (Forall_forall _ _)) in Hhi; [|done]. simpl in *. lia. }
  pose proof (up_intervals_within rs lo hi Hwf Hlo Hhi) as Hin.
  split; [done|].
  rewrite (union_length_window lo hi) by done.
  split.
  - pose proof (measure_bounds (covers (up_intervals_of rs)) lo hi). lia.
  - by apply merged_of_total_time.
Qed.


(** ** The parser: loops and dictionaries *)

Lemma for_each_inv {E S X} (body : S → X → outcome E S) (P : S → Prop) xs :
  (∀ s x s', P s → body s x = Ok s' → P s') →
  ∀ s s', P s → for_each body s xs = Ok s' → P s'.
Proof.
  intros Hbody. induction xs as [|x xs IH]; intros s s' Hs Hrun.
  - by injection Hrun as <-.
  - cbn [for_each] in Hrun. apply bind_Ok in Hrun as (s1 & Hstep & Hrun).
    eapply IH; [|exact Hrun]. by eapply Hbody.
Qed.


Lemma enumerate_cons {A} start (x : A) l :
  enumerate start (x :: l) = (start, x) :: enumerate (S start) l.
Proof. done. Qed.

Lemma enumerate_app {A} start (l1 l2 : list A) :
  enumerate start (l1 ++ l2)
  = enumerate start l1 ++ enumerate (start + length l1) l2.
Proof.
  revert start. induction l1 as [|x l1 IH]; intros start.
  - by rewrite Nat.add_0_r.
  - rewrite <-app_comm_cons, !enumerate_cons, IH. simpl.
    by rewrite Nat.add_succ_r.
Qed.

Lemma parse_lines_app st start l1 l2 :
  parse_lines st start (l1 ++ l2)
  = parse_lines st start l1 ≫= λ st', parse_lines st' (start + length l1) l2.
Proof. unfold parse_lines. by rewrite enumerate_app, for_each_app. Qed.

Lemma parse_lines_cons st start line lines :
  parse_lines st start (line :: lines)
  = parse_line st (start, line) ≫= λ st', parse_lines st' (S start) lines.
Proof. done. Qed.

Lemma dict_setitem_fresh {V} (d : pydict V) k v :
  k ∉ d.*1 → dict_setitem d k v = d ++ [(k, v)].
Proof.
  induction d as [|[k' v'] d IH]; intros Hk; [done|].
  cbn [dict_setitem]. apply not_elem_of_cons in Hk as [Hne Hk]. simpl in Hne.
  rewrite decide_False by done. by rewrite IH.
Qed.

Lemma listed_app stations item c :
  listed (stations ++ [item]) c ↔ listed stations c ∨ c ∈ item.2.
Proof.
  unfold listed. rewrite Exists_app, Exists_cons, Exists_nil. tauto.
Qed.

(** ** The parser: one line *)

Lemma int_at_Ok n token z : int_at n token = Ok z ↔ py_int token = IntValue z.
Proof.
  unfold int_at. destruct (py_int token); split; intros Heq; congruence.
Qed.

(** The loop over the charger tokens of a station line. *)
Lemma charger_loop_Ok n sid tokens :
  ∀ c2s acc c2s' cs',
  for_each (charger_step n sid) (c2s, acc) tokens = Ok (c2s', cs') →
  ∃ new, cs' = acc ++ new ∧
         tokens_are tokens new ∧
         NoDup new ∧
         Forall (λ c, c2s !! c = None ∧ in_uint32 c) new ∧
         ∀ c, c2s' !! c = if decide (c ∈ new) then Some sid else c2s !! c.
Proof.
  induction tokens as [|token tokens IH]; intros c2s acc c2s' cs' Hrun.
  { injection Hrun as <- <-. exists []. rewrite app_nil_r.
    split; [done|]. split; [constructor|]. split; [constructor|].
    split; [constructor|]. intros c.
    case_decide as Hin; [by apply elem_of_nil in Hin|done]. }
  cbn [for_each] in Hrun. apply bind_Ok in Hrun as ([c2s1 acc1] & Hstep & Hrun).
  unfold charger_step in Hstep.
  apply bind_Ok in Hstep as (c & Hc%int_at_Ok & Hstep).
  case_bool_decide as Hrange; [done|].
  case_bool_decide as Hdup; [done|].
  injection Hstep as <- <-.
  apply IH in Hrun as (new & -> & Htok & Hnd & Hfresh & Hlook).
  assert (c2s !! c = None) as Hnone.
  { destruct (c2s !! c) eqn:E; [|done]. destruct Hdup. eauto. }
  assert (c ∉ new) as Hnin.
  { intros Hin. eapply (proj1 (Forall_forall _ _)) in Hfresh as [Hf _]; [|done].
    by rewrite lookup_insert_eq in Hf. }
  exists (c :: new). split; [by rewrite <-app_assoc|].
  split; [by constructor|]. split; [by constructor|]. split.
  - constructor.
    + split; [done|]. unfold in_uint32, UINT32_MAX. lia.
    + eapply Forall_impl; [exact Hfresh|]. intros x [Hx ?]. split; [|done].
      destruct (decide (c = x)) as [->|Hne].
      * by rewrite lookup_insert_eq in Hx.
      * by rewrite lookup_insert_ne in Hx.
  - intros x. rewrite Hlook.
    rewrite (decide_ext (x ∈ c :: new) (x = c ∨ x ∈ new)) by apply elem_of_cons.
    destruct (decide (x ∈ new)).
    + rewrite decide_True; [done|]. by right.
    + destruct (decide (x = c)) as [->|].
      * rewrite lookup_insert_eq, decide_True; [done|]. by left.
      * rewrite lookup_insert_ne by done. rewrite decide_False; [done|].
        by intros [?|?].
Qed.

Lemma station_line_Ok n st line st' :
  station_line n st line = Ok st' →
  ∃ token tokens sid cs,
    split line = token :: tokens ∧
    py_int token = IntValue sid ∧ tokens_are tokens cs ∧
    in_uint32 sid ∧ (sid ∉ (stations st).*1) ∧
    NoDup cs ∧
    Forall (λ c, charger_to_station st !! c = None ∧ in_uint32 c) cs ∧
    (∀ c, charger_to_station st' !! c
          = if decide (c ∈ cs) then Some sid else charger_to_station st !! c) ∧
    stations st' = stations st ++ [(sid, cs)] ∧
    reports st' = reports st ∧
    current_section st' = current_section st.
Proof.
  unfold station_line. destruct (split line) as [|token tokens]; [done|].
  intros (sid & Hsid%int_at_Ok & Hrest)%bind_Ok.
  case_bool_decide as Hrange; [done|].
  apply bind_Ok in Hrest as ([c2s cs] & Hloop & Hrest).
  case_bool_decide as Hdup; [done|]. injection Hrest as <-.
  apply charger_loop_Ok in Hloop as (new & -> & Htok & Hnd & Hfresh & Hlook).
  exists token, tokens, sid, new. simpl.
  repeat (split; [done || (unfold in_uint32, UINT32_MAX; lia)|]).
  split; [by apply dict_setitem_fresh|]. done.
Qed.

Lemma report_line_Ok n st line st' :
  report_line n st line = Ok st' →
  ∃ p0 p1 p2 p3 c s e u,
    split line = [p0; p1; p2; p3] ∧
    py_int p0 = IntValue c ∧ py_int p1 = IntValue s ∧
    py_int p2 = IntValue e ∧ up_flag p3 u ∧
    in_uint32 c ∧ in_uint64 s ∧ in_uint64 e ∧ s < e ∧
    is_Some (charger_to_station st !! c) ∧
    st' = add_report st (c, s, e, u).
Proof.
  unfold report_line.
  destruct (split line) as [|p0 [|p1 [|p2 [|p3 [|? ?]]]]]; try done.
  intros (c & Hc%int_at_Ok & Hrest)%bind_Ok.
  apply bind_Ok in Hrest as (s & Hs%int_at_Ok & Hrest).
  apply bind_Ok in Hrest as (e & He%int_at_Ok & Hrest).
  case_bool_decide as Hrc; [done|].
  case_bool_decide as Hrs; [done|].
  case_bool_decide as Hre; [done|].
  apply bind_Ok in Hrest as (u & Hu & Hrest).
  case_bool_decide as Hse; [done|].
  case_bool_decide as Hknown; [done|]. injection Hrest as <-.
  exists p0, p1, p2, p3, c, s, e, u.
  repeat (split; [done|]). split.
  { unfold up_flag. repeat case_bool_decide; simplify_eq; done. }
  unfold in_uint32, in_uint64, UINT32_MAX, UINT64_MAX.
  repeat (split; [lia|]). split; [|done].
  by destruct (charger_to_station st !! c).
Qed.

Lemma parse_line_kind st n line :
  parse_line st (n, line) =
    match kind_of line with
    | Blank => Ok st
    | Header s => Ok (set_section st s)
    | Data =>
        match current_section st with
        | Some SecStations => station_line n st (strip line)
        | Some SecReports => report_line n st (strip line)
        | None => Raise (DataBeforeHeader n)
        end
    end.
Proof. unfold parse_line, kind_of. by repeat case_bool_decide. Qed.

(** ** The parser: the invariant of the loop *)

Lemma elem_of_chargers stations c :
  c ∈ mjoin stations.*2 ↔ listed stations c.
Proof.
  unfold listed. rewrite list_elem_of_join, Exists_exists. split.
  - intros (cs & Hc & (item & -> & Hitem)%list_elem_of_fmap). eauto.
  - intros (item & Hitem & Hc). exists item.2. split; [done|].
    by apply list_elem_of_fmap_2.
Qed.

Lemma state_inv_initial : state_inv initial_state.
Proof.
  unfold state_inv, dict_wf, chargers_distinct, initial_state. simpl.
  split; [constructor|]. split; [constructor|]. split.
  - intros c. rewrite lookup_empty. split; [by intros [? ?]|].
    by intros ?%Exists_nil.
  - split; constructor.
Qed.

Lemma state_inv_set_section st s : state_inv st → state_inv (set_section st s).
Proof. done. Qed.

Lemma state_inv_station_line n st line st' :
  state_inv st → station_line n st line = Ok st' → state_inv st'.
Proof.
  intros (Hwf & Hdist & Hc2s & Hrange & Hrep)
    (token & tokens & sid & cs & _ & _ & _ & Hsid & Hfresh_sid & Hnd & Hfresh
       & Hlook & Hst & Hreports & _)%station_line_Ok.
  unfold state_inv, dict_wf, chargers_distinct. rewrite Hst, Hreports.
  split.
  { rewrite fmap_app. apply NoDup_app. split; [done|]. split.
    - intros k Hk [->|Hin%elem_of_nil]%elem_of_cons; done.
    - apply NoDup_singleton. }
  split.
  { rewrite fmap_app, join_app. simpl. rewrite app_nil_r.
    apply NoDup_app. split; [done|]. split; [|done].
    intros c Hold%elem_of_chargers%Hc2s Hnew.
    eapply (proj1 (Forall_forall _ _)) in Hfresh as [Hnone _]; [|done].
    rewrite Hnone in Hold. by destruct Hold. }
  split.
  { intros c. rewrite Hlook, listed_app, <-Hc2s. simpl.
    case_decide; split; eauto. intros [?|?]; done. }
  split.
  { apply Forall_app. split; [done|]. constructor; [|constructor].
    split; [done|]. eapply Forall_impl; [exact Hfresh|]. by intros c [_ ?]. }
  eapply Forall_impl; [exact Hrep|]. intros r (Hl & ?). split; [|done].
  apply listed_app. by left.
Qed.

Lemma state_inv_report_line n st line st' :
  state_inv st → report_line n st line = Ok st' → state_inv st'.
Proof.
  intros (Hwf & Hdist & Hc2s & Hrange & Hrep)
    (p0 & p1 & p2 & p3 & c & s & e & u & _ & _ & _ & _ & _ & Hc & Hs & He
       & Hse & Hknown & ->)%report_line_Ok.
  unfold state_inv, add_report. simpl.
  repeat (split; [done|]).
  apply Forall_app. split; [done|]. constructor; [|constructor].
  unfold charger_of, start_of, end_of. simpl.
  split; [by apply Hc2s|]. done.
Qed.

Lemma state_inv_parse_line st item st' :
  state_inv st → parse_line st item = Ok st' → state_inv st'.
Proof.
  destruct item as [n line]. intros Hinv. rewrite parse_line_kind.
  destruct (kind_of line) as [|s|].
  - by intros [= <-].
  - intros [= <-]. by apply state_inv_set_section.
  - destruct (current_section st) as [[]|]; [| |done].
    + by apply state_inv_station_line.
    + by apply state_inv_report_line.
Qed.

Lemma state_inv_parse_lines st start lines st' :
  state_inv st → parse_lines st start lines = Ok st' → state_inv st'.
Proof. apply for_each_inv. apply state_inv_parse_line. Qed.

Lemma parse_text_Ok lines stations0 reports0 :
  parse_text lines = Ok (stations0, reports0) ↔
  ∃ st, parse_lines initial_state 1 lines = Ok st ∧
        stations st = stations0 ∧ reports st = reports0 ∧ stations0 ≠ [].
Proof.
  unfold parse_text. rewrite bind_Ok. split.
  - intros (st & Hrun & Hret). case_bool_decide; [done|].
    injection Hret as <- <-. eauto.
  - intros (st & Hrun & <- & <- & Hne). exists st. split; [done|].
    by rewrite bool_decide_false.
Qed.

(** A successful parse establishes the invariants of the data model. *)
Lemma parse_text_invariants lines stations0 reports0 :
  parse_text lines = Ok (stations0, reports0) →
  parser_invariants stations0 reports0.
Proof.
  intros (st & Hrun & <- & <- & _)%parse_text_Ok.
  apply state_inv_parse_lines in Hrun as (Hwf & Hdist & _ & Hrange & Hrep);
    [|apply state_inv_initial].
  unfold parser_invariants, chargers_known.
  split; [done|]. split; [done|].
  split; [eapply Forall_impl; [exact Hrep|]; by intros r (? & _)|].
  split; [eapply Forall_impl; [exact Hrep|]; by intros r (_ & ? & _)|].
  split; [done|].
  eapply Forall_impl; [exact Hrep|]. by intros r (_ & _ & ? & ? & ?).
Qed.

(** ** The parser: which lines are accepted *)

Lemma charger_step_unfold n sid c2s acc token :
  charger_step n sid (c2s, acc) token =
    int_at n token ≫= λ charger_id,
      if bool_decide (charger_id < 0 ∨ charger_id > 4294967295)
      then Raise (ChargerIdOutOfRange n)
      else if bool_decide (is_Some (c2s !! charger_id))
      then Raise (DuplicateCharger charger_id n)
      else Ok (<[charger_id := sid]> c2s, acc ++ [charger_id]).
Proof. done. Qed.

Lemma charger_loop_complete n sid tokens cs :
  tokens_are tokens cs →
  ∀ c2s acc,
  Forall in_uint32 cs → NoDup cs → Forall (λ c, c2s !! c = None) cs →
  for_each (charger_step n sid) (c2s, acc) tokens
  = Ok (foldl (λ m c, <[c := sid]> m) c2s cs, acc ++ cs).
Proof.
  induction 1 as [|token c tokens cs Htok _ IH]; intros c2s acc Hr Hnd Hf.
  { by rewrite app_nil_r. }
  apply Forall_cons in Hr as [Hc Hr]. apply NoDup_cons in Hnd as [Hnin Hnd].
  apply Forall_cons in Hf as [Hnone Hf].
  cbn [for_each]. rewrite charger_step_unfold.
  apply int_at_Ok with (n := n) in Htok. rewrite Htok.
  cbn [mbind outcome_bind].
  unfold in_uint32, UINT32_MAX in Hc.
  rewrite bool_decide_false by lia.
  rewrite bool_decide_false by (rewrite Hnone; by intros [? ?]).
  cbn [mbind outcome_bind]. rewrite IH; [|done..|].
  - cbn [foldl]. by rewrite <-app_assoc.
  - apply Forall_forall. intros x Hx.
    rewrite lookup_insert_ne by (intros ->; done).
    by eapply (proj1 (Forall_forall _ _)) in Hf.
Qed.

Lemma charger_loop_dup n sid tokens cs :
  tokens_are tokens cs →
  ∀ c2s acc,
  Forall in_uint32 cs →
  Exists (λ c, is_Some (c2s !! c)) cs ∨ ¬ NoDup cs →
  ∃ c, c ∈ cs ∧
       for_each (charger_step n sid) (c2s, acc) tokens
       = Raise (DuplicateCharger c n).
Proof.
  induction 1 as [|token c tokens cs Htok _ IH]; intros c2s acc Hr Hdup.
  { destruct Hdup as [[]%Exists_nil|Hnd]. destruct Hnd. constructor. }
  apply Forall_cons in Hr as [Hc Hr].
  cbn [for_each]. rewrite charger_step_unfold.
  apply int_at_Ok with (n := n) in Htok. rewrite Htok.
  cbn [mbind outcome_bind].
  unfold in_uint32, UINT32_MAX in Hc.
  rewrite bool_decide_false by lia.
  case_bool_decide as Hknown.
  { exists c. split; [by left|done]. }
  cbn [mbind outcome_bind].
  destruct (IH (<[c := sid]> c2s) (acc ++ [c]) Hr) as (c' & Hc' & ->).
  - destruct Hdup as [[?|Hex]%Exists_cons|Hnd]; [done| |].
    + left. eapply Exists_impl; [exact Hex|]. intros x Hx.
      by rewrite lookup_insert_is_Some'; right.
    + destruct (decide (c ∈ cs)) as [Hin|Hnin].
      * left. apply Exists_exists. exists c. split; [done|].
        by rewrite lookup_insert_eq.
      * right. intros Hnd'. apply Hnd. by constructor.
  - exists c'. split; [by right|done].
Qed.

Lemma station_line_complete n st line sid cs :
  state_inv st →
  current_section st = Some SecStations →
  station_tokens line sid cs →
  sid ∉ (stations st).*1 → NoDup cs →
  Forall (λ c, ¬ listed (stations st) c) cs →
  parse_line st (n, line) = Ok (add_station st sid cs).
Proof.
  intros (_ & _ & Hc2s & _) Hsec
    (Hkind & token & tokens & Hsplit & Hsid & Htok & Hrs & Hrc) Hfresh Hnd Hnl.
  rewrite app_nil_r in Hsplit.
  rewrite parse_line_kind, Hkind, Hsec. unfold station_line. rewrite Hsplit.
  apply int_at_Ok with (n := n) in Hsid. rewrite Hsid.
  cbn [mbind outcome_bind]. unfold in_uint32, UINT32_MAX in Hrs.
  rewrite bool_decide_false by lia.
  rewrite (charger_loop_complete n sid tokens cs Htok); [|done..|].
  - cbn [mbind outcome_bind]. rewrite bool_decide_false by done.
    unfold add_station. by rewrite dict_setitem_fresh.
  - eapply Forall_impl; [exact Hnl|]. intros c Hc.
    destruct (charger_to_station st !! c) eqn:E; [|done].
    destruct Hc. apply Hc2s. eauto.
Qed.

Lemma station_line_duplicate n st line sid cs rest :
  state_inv st →
  current_section st = Some SecStations →
  station_prefix line sid cs rest →
  Exists (listed (stations st)) cs ∨ ¬ NoDup cs →
  ∃ c, c ∈ cs ∧ parse_line st (n, line) = Raise (DuplicateCharger c n).
Proof.
  intros (_ & _ & Hc2s & _) Hsec
    (Hkind & token & tokens & Hsplit & Hsid & Htok & Hrs & Hrc) Hdup.
  rewrite parse_line_kind, Hkind, Hsec. unfold station_line. rewrite Hsplit.
  apply int_at_Ok with (n := n) in Hsid. rewrite Hsid.
  cbn [mbind outcome_bind]. unfold in_uint32, UINT32_MAX in Hrs.
  rewrite bool_decide_false by lia. rewrite for_each_app.
  destruct (charger_loop_dup n sid tokens cs Htok (charger_to_station st) [])
    as (c & Hc & ->); [done| |by exists c].
  destruct Hdup as [Hex|?]; [left|by right].
  eapply Exists_impl; [exact Hex|]. intros c. apply Hc2s.
Qed.

Lemma report_line_known n st line r :
  state_inv st →
  current_section st = Some SecReports →
  report_tokens line r →
  parse_line st (n, line) =
    if decide (listed (stations st) (charger_of r))
    then Ok (add_report st r)
    else Raise (UnknownCharger (charger_of r) n).
Proof.
  destruct r as [[[c s] e] u].
  intros (_ & _ & Hc2s & _) Hsec
    (Hkind & p0 & p1 & p2 & p3 & Hsplit & H0 & H1 & H2 & Hu & Hrc & Hrs & Hre
       & Hse).
  unfold charger_of, start_of, end_of, up_of in *. cbn [fst snd] in *.
  rewrite parse_line_kind, Hkind, Hsec. unfold report_line. rewrite Hsplit.
  apply int_at_Ok with (n := n) in H0, H1, H2. rewrite H0, H1, H2.
  cbn [mbind outcome_bind].
  unfold in_uint32, in_uint64, UINT32_MAX, UINT64_MAX in *.
  rewrite !bool_decide_false by lia.
  assert ((if bool_decide (lower p3 = "true") then Ok true
           else if bool_decide (lower p3 = "false") then Ok false
           else Raise (InvalidUpValue n)) = (Ok u : parsed bool)) as ->.
  { unfold up_flag in Hu. rewrite Hu. by destruct u. }
  cbn [mbind outcome_bind].
  case_decide as Hl.
  - apply Hc2s in Hl as [sid Hsid].
    rewrite bool_decide_false by congruence. done.
  - rewrite bool_decide_true; [done|].
    destruct (charger_to_station st !! c) eqn:E; [|done].
    destruct Hl. apply Hc2s. eauto.
Qed.

(** ** The parser: which errors are raised *)

















(** ** The parser: the stations are the station lines of the input *)

Lemma parse_lines_stations lines :
  ∀ st start st',
  parse_lines st start lines = Ok st' →
  ∃ items,
    stations st' = stations st ++ items ∧
    Forall2 (λ line (item : Z * list Z), station_tokens line item.1 item.2)
            (station_data_lines (current_section st) lines) items.
Proof.
  induction lines as [|line lines IH]; intros st start st' Hrun.
  { injection Hrun as <-. exists []. by rewrite app_nil_r. }
  rewrite parse_lines_cons in Hrun.
  apply bind_Ok in Hrun as (st1 & Hline & Hrun).
  rewrite parse_line_kind in Hline. cbn [station_data_lines].
  destruct (kind_of line) as [|s|] eqn:Hkind.
  - injection Hline as <-. by eapply IH.
  - injection Hline as <-. by apply (IH _ _ _ Hrun).
  - destruct (current_section st) as [[]|] eqn:Hsec; [| |done].
    + apply station_line_Ok in Hline
        as (token & tokens & sid & cs & Hsplit & Hsid & Htok & Hrs & _ & _
              & Hfresh & _ & Hst & _ & Hsec1).
      apply IH in Hrun as (items & Hitems & Hall).
      exists ((sid, cs) :: items). split.
      * by rewrite Hitems, Hst, <-app_assoc.
      * rewrite Hsec1, Hsec in Hall. constructor; [|done].
        split; [done|]. exists token, tokens. rewrite app_nil_r.
        repeat (split; [done|]).
        eapply Forall_impl; [exact Hfresh|]. by intros c [_ ?].
    + apply report_line_Ok in Hline
        as (? & ? & ? & ? & c & s & e & u & _ & _ & _ & _ & _ & _ & _ & _ & _
              & _ & ->).
      apply IH in Hrun as (items & Hitems & Hall).
      exists items. split; [done|]. simpl in Hall. by rewrite Hsec in Hall.
Qed.

Lemma tokens_are_functional tokens zs zs' :
  tokens_are tokens zs → tokens_are tokens zs' → zs = zs'.
Proof.
  intros H. revert zs'. induction H as [|token z tokens zs Hz _ IH];
    intros zs' H'; inversion H' as [|? z' ? zs'' Hz' H'']; subst; [done|].
  f_equal; [congruence|by apply IH].
Qed.

Lemma station_tokens_functional line sid cs sid' cs' :
  station_tokens line sid cs → station_tokens line sid' cs' →
  sid = sid' ∧ cs = cs'.
Proof.
  intros (_ & token & tokens & Hsplit & Hsid & Htok & _)
         (_ & token' & tokens' & Hsplit' & Hsid' & Htok' & _).
  rewrite app_nil_r in Hsplit, Hsplit'.
  rewrite Hsplit in Hsplit'. injection Hsplit' as <- <-.
  split; [congruence|by eapply tokens_are_functional].
Qed.

(** After a prefix of the file has been read, the chargers the stations
    list are the chargers declared on the station lines of the prefix. *)
Lemma listed_declared before st c :
  parse_lines initial_state 1 before = Ok st →
  listed (stations st) c ↔ declared_in before c.
Proof.
  intros (items & Hitems & Hall)%parse_lines_stations.
  simpl in Hitems, Hall. rewrite Hitems. unfold listed, declared_in.
  rewrite Exists_exists. split.
  - intros (item & (i & Hi)%list_elem_of_lookup & Hc).
    destruct (Forall2_lookup_r _ _ _ _ _ Hall Hi) as (line & Hline & Htok).
    exists line, item.1, item.2. split; [|done].
    apply list_elem_of_lookup. eauto.
  - intros (line & sid & cs & (i & Hi)%list_elem_of_lookup & Htok & Hc).
    destruct (Forall2_lookup_l _ _ _ _ _ Hall Hi) as (item & Hitem & Htok').
    destruct (station_tokens_functional _ _ _ _ _ Htok Htok') as [-> ->].
    exists item. split; [|done]. apply list_elem_of_lookup. eauto.
Qed.

Lemma parse_input_file_lines fs file_path lines :
  fs file_path = FileLines lines →
  parse_input_file fs file_path = parse_text lines.
Proof. unfold parse_input_file. by intros ->. Qed.

(** ** The parser: the chargers that appear in the Stations section *)

Lemma tokens_are_omap tokens cs :
  tokens_are tokens cs →
  omap (λ token, match py_int token with
                 | IntValue z => Some z
                 | _ => None
                 end) tokens = cs.
Proof.
  induction 1 as [|token c tokens cs Htok _ IH]; [done|].
  cbn [omap list_omap]. rewrite Htok. cbn. by rewrite IH.
Qed.

Lemma station_tokens_chargers line sid cs :
  station_tokens line sid cs → line_chargers line = cs.
Proof.
  intros (_ & token & tokens & Hsplit & _ & Htok & _).
  rewrite app_nil_r in Hsplit. unfold line_chargers. rewrite Hsplit.
  by apply tokens_are_omap.
Qed.

(** After a successful parse the chargers of the stations are the charger
    IDs that appear in the Stations section. *)
Lemma parse_text_chargers lines stations0 reports0 :
  parse_text lines = Ok (stations0, reports0) →
  mjoin stations0.*2 = declared_chargers lines.
Proof.
  intros (st & Hrun & <- & _ & _)%parse_text_Ok.
  apply parse_lines_stations in Hrun as (items & -> & Hall).
  simpl in *. unfold declared_chargers. f_equal.
  induction Hall as [|line item ls items Htok _ IH]; [done|].
  cbn [fmap list_fmap]. by rewrite IH, (station_tokens_chargers _ _ _ Htok).
Qed.
(** * The claims about the calculator *)

(** C2. For every list of intervals [merge_intervals] returns a list that
    is sorted by start, whose intervals each end strictly before every
    later one starts (so none overlap and none touch), and that covers
    exactly the instants the input covers, hence the same length in every
    window; two touching intervals become one; and merging the result
    again returns it unchanged. When no input interval ends before it
    starts, the sum of [end - start] over the result, which is what
    [calculate_total_time] computes, is that length of the union. *)
Theorem merge_intervals_spec (intervals : list interval) :
  ∃ merged,
    merge_intervals intervals = Ok merged ∧
    sorted_by_start merged ∧
    strictly_apart merged ∧
    (∀ t, covers merged t ↔ covers intervals t) ∧
    (∀ lo hi, measure (covers merged) lo hi = measure (covers intervals) lo hi) ∧
    (Forall interval_wf intervals →
       calculate_total_time merged = union_length intervals) ∧
    (∀ a b c, a ≤ b ≤ c → intervals = [(a, b); (b, c)] → merged = [(a, c)]) ∧
    merge_intervals merged = Ok merged.
Proof.
  exists (merged_of intervals). split; [apply merge_intervals_merged_of|].
  split; [apply merged_of_sorted_by_start|].
  split; [apply merged_of_strictly_apart|].
  split; [apply merged_of_covers|].
  split; [intros lo hi; apply measure_ext; intros t _; apply merged_of_covers|].
  split; [apply merged_of_union_length|].
  split.
  - intros a b c Habc ->.
    pose proof (merge_touching a b c Habc) as Ht.
    rewrite merge_intervals_merged_of in Ht. congruence.
  - by rewrite merge_intervals_merged_of, merged_of_idemp.
Qed.

Lemma merge_intervals_spec_witness :
  Forall interval_wf [(50, 100); (0, 30); (20, 60); (100, 120); (130, 140)] ∧
  ∃ merged,
    merge_intervals [(50, 100); (0, 30); (20, 60); (100, 120); (130, 140)]
      = Ok merged ∧
    calculate_total_time merged = 130.
Proof.
  assert (Forall interval_wf
            [(50, 100); (0, 30); (20, 60); (100, 120); (130, 140)]) as Hwf.
  { repeat constructor; unfold interval_wf; simpl; lia. }
  split; [exact Hwf|].
  destruct (merge_intervals_spec
              [(50, 100); (0, 30); (20, 60); (100, 120); (130, 140)])
    as (merged & Hm & _ & _ & _ & _ & Hlen & _).
  exists merged. split; [exact Hm|].
  rewrite (Hlen Hwf). vm_compute. reflexivity.
Defined.

(** C1. For a station with at least one report and a window that is not
    degenerate, [calculate_station_uptime] stores
    [floor (upTime * 100 / totalDuration)]: [totalDuration] is the greatest
    end minus the least start over all the reports of the station, up or
    down, and [upTime] is the total length of the merged [isUp = true]
    intervals of the station, which for well-formed reports is the length
    of their union. *)
Theorem station_uptime_floor_ratio stations reports sid lo hi :
  chargers_unique stations →
  chargers_known stations reports →
  sid ∈ stations.*1 →
  is_min lo (start_of <$> reports_of stations sid reports) →
  is_max hi (end_of <$> reports_of stations sid reports) →
  hi - lo ≠ 0 →
  ∃ uptimes merged_up v,
    calculate_station_uptime stations reports = Ok uptimes ∧
    merge_intervals (up_intervals_of (reports_of stations sid reports))
      = Ok merged_up ∧
    uptimes !! sid = Some v ∧
    v = (calculate_total_time merged_up * 100) `div` (hi - lo) ∧
    is_floor v (calculate_total_time merged_up * 100) (hi - lo) ∧
    (Forall (λ r, start_of r ≤ end_of r) (reports_of stations sid reports) →
       calculate_total_time merged_up
       = union_length (up_intervals_of (reports_of stations sid reports))).
Proof.
  intros Hu Hk Hsid Hlo Hhi Hne.
  destruct (calculate_station_uptime_Ok stations reports Hk)
    as (uptimes & Hcalc & Hlook).
  exists uptimes, (merged_of (up_intervals_of (reports_of stations sid reports))).
  eexists. split; [done|].
  split; [apply merge_intervals_merged_of|].
  split.
  { rewrite Hlook, decide_True by done.
    rewrite grouped_reports_of by done.
    rewrite (uptime_of_reports _ lo hi) by done.
    by rewrite bool_decide_false. }
  split; [done|]. split; [by apply floor_div|].
  intros Hwf. apply merged_of_union_length.
  unfold up_intervals_of. apply Forall_fmap, Forall_forall.
  intros r [_ Hin]%list_elem_of_filter.
  eapply (proj1 (Forall_forall _ _)) in Hwf; [|done]. done.
Qed.

(** The scenario of the specification: reports [(1001, 0, 50, true)] and
    [(1001, 100, 200, true)] give the window [0, 200], 150 up, and 75. *)
Lemma station_uptime_floor_ratio_witness :
  ∃ uptimes,
    calculate_station_uptime [(0, [1001])]
      [(1001, 0, 50, true); (1001, 100, 200, true)] = Ok uptimes ∧
    uptimes !! 0 = Some 75.
Proof.
  destruct (station_uptime_floor_ratio [(0, [1001])]
              [(1001, 0, 50, true); (1001, 100, 200, true)] 0 0 200)
    as (uptimes & merged_up & v & Hcalc & Hm & Hv & -> & _).
  - intros c s1 s2 H1 H2. unfold owns in *.
    apply Exists_cons in H1 as [[<- _]|H1]; [|by apply Exists_nil in H1].
    apply Exists_cons in H2 as [[<- _]|H2]; [|by apply Exists_nil in H2].
    reflexivity.
  - apply (bool_decide_unpack _). vm_compute. exact I.
  - apply (bool_decide_unpack _). vm_compute. exact I.
  - apply (bool_decide_unpack _). vm_compute. exact I.
  - apply (bool_decide_unpack _). vm_compute. exact I.
  - lia.
  - exists uptimes. split; [exact Hcalc|].
    rewrite Hv. f_equal.
    vm_compute in Hm. injection Hm as <-. vm_compute. reflexivity.
Defined.

(** C3. For stations and reports that satisfy the invariants the parser
    establishes, every value of the returned mapping is an integer between
    0 and 100; it is 0 for a station without reports and otherwise the
    floor of [upTime * 100 / totalDuration]: the remainder is discarded, so
    the value is never rounded up. *)
Theorem uptime_percentage_range stations reports uptimes :
  parser_invariants stations reports →
  calculate_station_uptime stations reports = Ok uptimes →
  ∀ sid v, uptimes !! sid = Some v →
    0 ≤ v ≤ 100 ∧
    ((reports_of stations sid reports = [] ∧ v = 0) ∨
     (∃ lo hi,
        is_min lo (start_of <$> reports_of stations sid reports) ∧
        is_max hi (end_of <$> reports_of stations sid reports) ∧
        lo < hi ∧
        let up_time :=
          union_length (up_intervals_of (reports_of stations sid reports)) in
        0 ≤ up_time ≤ hi - lo ∧
        v * (hi - lo) ≤ up_time * 100 < (v + 1) * (hi - lo))).
Proof.
  intros (_ & Hd & Hk & Hv & _ & _) Hcalc sid v Hsid.
  apply chargers_distinct_unique in Hd.
  destruct (calculate_station_uptime_Ok stations reports Hk)
    as (uptimes' & Hcalc' & Hlook).
  assert (uptimes' = uptimes) as -> by congruence.
  rewrite Hlook in Hsid. case_decide; [|done].
  injection Hsid as <-. rewrite grouped_reports_of by done.
  destruct (reports_of stations sid reports) as [|r rs] eqn:Ers.
  { split; [simpl; lia|]. by left. }
  assert (Forall (λ r, start_of r < end_of r) (r :: rs)) as Hvalid.
  { rewrite <-Ers. unfold reports_of. apply Forall_forall.
    intros x [_ Hx]%list_elem_of_filter.
    by eapply (proj1 (Forall_forall _ _)) in Hv. }
  pose proof (is_min_foldl (start_of r) (start_of <$> rs)) as Hlo.
  pose proof (is_max_foldl (end_of r) (end_of <$> rs)) as Hhi.
  set (lo := foldl Z.min (start_of r) (start_of <$> rs)) in *.
  set (hi := foldl Z.max (end_of r) (end_of <$> rs)) in *.
  destruct (valid_reports_window (r :: rs) lo hi Hvalid Hlo Hhi)
    as (Hlt & Hup & Htot).
  rewrite (uptime_of_reports (r :: rs) lo hi Hlo Hhi).
  rewrite bool_decide_false by lia. rewrite Htot.
  split; [apply percent_bounds; lia|].
  right. exists lo, hi. split; [exact Hlo|]. split; [exact Hhi|].
  split; [exact Hlt|]. split; [exact Hup|].
  apply is_floor_pos; [lia|]. apply floor_div. lia.
Qed.

Lemma uptime_percentage_range_witness :
  ∃ uptimes,
    calculate_station_uptime [(0, [1001])]
      [(1001, 0, 10, true); (1001, 10, 20, false); (1001, 20, 30, true)]
      = Ok uptimes ∧
    uptimes !! 0 = Some 66 ∧ 0 ≤ 66 ≤ 100.
Proof.
  exists {[ 0 := 66 ]}.
  assert (calculate_station_uptime [(0, [1001])]
            [(1001, 0, 10, true); (1001, 10, 20, false); (1001, 20, 30, true)]
          = Ok {[ 0 := 66 ]}) as Hcalc by (vm_compute; reflexivity).
  assert ((({[ 0 := 66 ]} : gmap Z Z) !! 0) = Some 66) as Hlook
    by (vm_compute; reflexivity).
  split; [exact Hcalc|]. split; [exact Hlook|].
  refine (proj1 (uptime_percentage_range [(0, [1001])]
            [(1001, 0, 10, true); (1001, 10, 20, false); (1001, 20, 30, true)]
            {[ 0 := 66 ]} _ Hcalc 0 66 Hlook)).
  unfold parser_invariants, dict_wf, chargers_distinct.
  repeat split; apply (bool_decide_unpack _); vm_compute; exact I.
Defined.

(** C4. The returned mapping has an entry for exactly the declared
    stations, and a station none of whose chargers is reported on is
    mapped to 0. *)
Theorem uptime_entry_per_station stations reports uptimes :
  calculate_station_uptime stations reports = Ok uptimes →
  dom uptimes = list_to_set stations.*1 ∧
  ∀ sid, sid ∈ stations.*1 → reports_of stations sid reports = [] →
         uptimes !! sid = Some 0.
Proof.
  intros Hcalc.
  pose proof (calculate_station_uptime_inv _ _ _ Hcalc) as Hk.
  destruct (calculate_station_uptime_Ok stations reports Hk)
    as (uptimes' & Hcalc' & Hlook).
  assert (uptimes' = uptimes) as -> by congruence.
  split.
  - apply set_eq. intros sid.
    rewrite elem_of_dom, elem_of_list_to_set, Hlook.
    case_decide; split; intros Hx;
      first [done | by eexists | by destruct Hx as [? ?]].
  - intros sid Hsid Hnil. rewrite Hlook, decide_True by done.
    by rewrite grouped_nil.
Qed.

Lemma uptime_entry_per_station_witness :
  ∃ uptimes,
    calculate_station_uptime [(0, [1001]); (1, [1002])] [(1001, 0, 100, true)]
      = Ok uptimes ∧
    dom uptimes = list_to_set [0; 1] ∧ uptimes !! 1 = Some 0.
Proof.
  exists {[ 0 := 100; 1 := 0 ]}.
  assert (calculate_station_uptime [(0, [1001]); (1, [1002])]
            [(1001, 0, 100, true)] = Ok {[ 0 := 100; 1 := 0 ]}) as Hcalc
    by (vm_compute; reflexivity).
  split; [exact Hcalc|].
  destruct (uptime_entry_per_station _ _ _ Hcalc) as [Hdom Hzero].
  split; [exact Hdom|]. apply Hzero.
  - apply (bool_decide_unpack _). vm_compute. exact I.
  - vm_compute. reflexivity.
Defined.

(** C8. When every report is about a charger that some station lists,
    [calculate_station_uptime] raises nothing and returns a mapping; in
    particular the lookup [charger_to_station[charger_id]] succeeds for
    every report. *)
Theorem calculate_station_uptime_total stations reports :
  chargers_known stations reports →
  Forall (λ r, ∃ station_id,
            dict_getitem (build_charger_to_station stations) (charger_of r)
            = Ok station_id ∧ station_id ∈ stations.*1) reports ∧
  ∃ uptimes, calculate_station_uptime stations reports = Ok uptimes.
Proof.
  intros Hk. split.
  - eapply Forall_impl; [exact Hk|]. intros r Hr.
    apply charger_to_station_known in Hr as [sid Hsid].
    exists sid. unfold dict_getitem. rewrite Hsid. split; [done|].
    eapply owns_key, charger_to_station_owns, Hsid.
  - destruct (calculate_station_uptime_Ok stations reports Hk)
      as (uptimes & Hcalc & _). eauto.
Qed.

Lemma calculate_station_uptime_total_witness :
  ∃ uptimes,
    calculate_station_uptime [(0, [1001; 1002]); (1, [1003])]
      [(1001, 0, 100, true); (1002, 50, 150, false); (1003, 0, 200, true)]
    = Ok uptimes.
Proof.
  refine (proj2 (calculate_station_uptime_total
                   [(0, [1001; 1002]); (1, [1003])]
                   [(1001, 0, 100, true); (1002, 50, 150, false);
                    (1003, 0, 200, true)] _)).
  apply (bool_decide_unpack _). vm_compute. exact I.
Defined.

(** Without the precondition the lookup does raise. *)
Example calculate_station_uptime_unknown_charger :
  calculate_station_uptime [(0, [1001])] [(9999, 0, 100, true)]
  = Raise (KeyError 9999).
Proof. vm_compute. reflexivity. Qed.

(** C9. Reordering the reports does not change the result. *)
Theorem calculate_station_uptime_permutation stations reports1 reports2 :
  reports1 ≡ₚ reports2 →
  ∀ uptimes,
    calculate_station_uptime stations reports1 = Ok uptimes ↔
    calculate_station_uptime stations reports2 = Ok uptimes.
Proof.
  assert (∀ r1 r2 uptimes, r1 ≡ₚ r2 →
            calculate_station_uptime stations r1 = Ok uptimes →
            calculate_station_uptime stations r2 = Ok uptimes) as Hone.
  { intros r1 r2 uptimes Hp Hcalc.
    pose proof (calculate_station_uptime_inv _ _ _ Hcalc) as Hk.
    destruct (calculate_station_uptime_Ok stations r1 Hk)
      as (u1 & Hu1 & Hl1).
    assert (u1 = uptimes) as -> by congruence.
    destruct (calculate_station_uptime_Ok stations r2) as (u2 & -> & Hl2).
    { unfold chargers_known. by rewrite <-Hp. }
    f_equal. apply map_eq. intros sid. rewrite Hl1, Hl2.
    case_decide; [|done]. f_equal. apply uptime_of_Permutation.
    unfold grouped. by rewrite Hp. }
  intros Hp uptimes. split; apply Hone; [done|by symmetry].
Qed.

Lemma calculate_station_uptime_permutation_witness :
  calculate_station_uptime [(0, [1001; 1002])]
    [(1002, 40, 100, true); (1001, 0, 50, true); (1001, 120, 200, false)]
  = Ok {[ 0 := 50 ]}.
Proof.
  apply (calculate_station_uptime_permutation [(0, [1001; 1002])]
           [(1001, 0, 50, true); (1002, 40, 100, true);
            (1001, 120, 200, false)]).
  - apply perm_swap.
  - vm_compute. reflexivity.
Defined.


(** * The claims about the parser *)

(** C5. An input in which a charger ID appears more than once in the
    Stations section, be it under one station or under two, is never
    parsed: [parse_input_file] fails. The station line that repeats a
    charger, whether the charger was declared on an earlier station line or
    earlier on the same line, is rejected with the duplicate-charger error
    naming that line. Parsing stops at the first error, so for that error
    the lines before are lines that were read without error, and the tokens
    of the line up to the repeated charger are integers of 32 bits; what
    follows them on the line and in the file is arbitrary. *)
Theorem duplicate_charger_rejected fs file_path :
  (∀ lines,
     fs file_path = FileLines lines →
     ¬ NoDup (declared_chargers lines) →
     ∃ e, parse_input_file fs file_path = Raise e) ∧
  (∀ before line after st sid cs rest,
     fs file_path = FileLines (before ++ line :: after) →
     parse_lines initial_state 1 before = Ok st →
     current_section st = Some SecStations →
     station_prefix line sid cs rest →
     Exists (declared_in before) cs ∨ ¬ NoDup cs →
     ∃ c, c ∈ cs ∧
          parse_input_file fs file_path
          = Raise (DuplicateCharger c (S (length before)))).
Proof.
  split.
  - intros lines Hfs Hdup. rewrite (parse_input_file_lines _ _ _ Hfs).
    destruct (parse_text lines) as [[stations0 reports0]|e] eqn:Hparse;
      [|by exists e].
    destruct Hdup. rewrite <-(parse_text_chargers _ _ _ Hparse).
    by apply parse_text_invariants in Hparse as (_ & ? & _).
  - intros before line after st sid cs rest Hfs Hbefore Hsec Htok Hdup.
    rewrite (parse_input_file_lines _ _ _ Hfs).
    destruct (station_line_duplicate (S (length before)) st line sid cs rest)
      as (c & Hc & Hline); [|done..| |].
    + eapply state_inv_parse_lines; [apply state_inv_initial|done].
    + destruct Hdup as [Hex|?]; [left|by right].
      eapply Exists_impl; [exact Hex|]. intros c.
      by apply listed_declared.
    + exists c. split; [done|]. unfold parse_text.
      rewrite parse_lines_app, Hbefore. cbn [mbind outcome_bind].
      rewrite parse_lines_cons. change (1 + length before)%nat
        with (S (length before)). by rewrite Hline.
Qed.

(** An earlier error is the one reported, the input is refused all the
    same. *)
Example duplicate_charger_after_error :
  parse_text ["[Stations]"; "0 x"; "1 5"; "2 5"] = Raise (InvalidInteger 2) ∧
  declared_chargers ["[Stations]"; "0 x"; "1 5"; "2 5"] = [5; 5].
Proof. split; vm_compute; reflexivity. Qed.

Lemma station_prefix_intro line token tokens rest sid cs :
  kind_of line = Data → split (strip line) = token :: tokens ++ rest →
  py_int token = IntValue sid → tokens_are tokens cs →
  in_uint32 sid → Forall in_uint32 cs →
  station_prefix line sid cs rest.
Proof. intros. split; [done|]. by exists token, tokens. Qed.

(** The scenario of the specification: charger 1001 of station 0 is
    reused under station 1. *)
Lemma duplicate_charger_rejected_witness :
  parse_input_file (λ _, FileLines ["[Stations]"; "0 1001 1002"; "1 1001"])
                   "input.txt"
  = Raise (DuplicateCharger 1001 3).
Proof.
  destruct (proj2 (duplicate_charger_rejected
                     (λ _, FileLines ["[Stations]"; "0 1001 1002"; "1 1001"])
                     "input.txt")
              ["[Stations]"; "0 1001 1002"] "1 1001" []
              {| current_section := Some SecStations;
                 charger_to_station := {[ 1001 := 0; 1002 := 0 ]};
                 stations := [(0, [1001; 1002])];
                 reports := [] |}
              1 [1001] []) as (c & Hc & Hparse).
  - reflexivity.
  - vm_compute. reflexivity.
  - reflexivity.
  - apply (station_prefix_intro _ "1" ["1001"] []).
    + vm_compute. reflexivity.
    + vm_compute. reflexivity.
    + vm_compute. reflexivity.
    + constructor; [vm_compute; reflexivity|constructor].
    + unfold in_uint32, UINT32_MAX. lia.
    + constructor; [unfold in_uint32, UINT32_MAX; lia|constructor].
  - left. apply Exists_cons_hd.
    exists "0 1001 1002", 0, [1001; 1002]. split; [|split].
    + vm_compute. apply list_elem_of_here.
    + apply (station_prefix_intro _ "0" ["1001"; "1002"] []).
      * vm_compute. reflexivity.
      * vm_compute. reflexivity.
      * vm_compute. reflexivity.
      * repeat (constructor; [vm_compute; reflexivity|]). constructor.
      * unfold in_uint32, UINT32_MAX. lia.
      * repeat (constructor; [unfold in_uint32, UINT32_MAX; lia|]).
        constructor.
    + apply list_elem_of_here.
  - apply list_elem_of_singleton in Hc. rewrite Hparse, Hc. reflexivity.
Defined.

(** C6. [parse_input_file] returns [(stations, reports)] only with a
    station in [stations], which are the stations of the station lines of
    the file; an input without a station line (an empty file, a file with
    only a Reports section) ends in an error. *)
Theorem parse_requires_station fs file_path :
  (∀ stations reports,
     parse_input_file fs file_path = Ok (stations, reports) →
     stations ≠ [] ∧
     ∃ lines,
       fs file_path = FileLines lines ∧
       Forall2 (λ line (item : Z * list Z), station_tokens line item.1 item.2)
               (station_data_lines None lines) stations) ∧
  (∀ lines,
     fs file_path = FileLines lines →
     station_data_lines None lines = [] →
     ∃ e, parse_input_file fs file_path = Raise e) ∧
  (fs file_path = FileLines [] →
     parse_input_file fs file_path = Raise NoStationsDefined).
Proof.
  split; [|split].
  - intros stations0 reports0 Hparse.
    destruct (fs file_path) as [| | |lines] eqn:Hfs;
      unfold parse_input_file in Hparse; rewrite Hfs in Hparse; [done..|].
    cbn [mbind outcome_bind] in Hparse.
    apply parse_text_Ok in Hparse as (st & Hrun & <- & <- & Hne).
    split; [done|]. exists lines. split; [done|].
    apply parse_lines_stations in Hrun as (items & Hitems & Hall).
    simpl in Hitems. by rewrite Hitems.
  - intros lines Hfs Hnone. rewrite (parse_input_file_lines _ _ _ Hfs).
    unfold parse_text.
    destruct (parse_lines initial_state 1 lines) as [st|e] eqn:Hrun;
      [|by exists e].
    apply parse_lines_stations in Hrun as (items & Hitems & Hall).
    simpl in Hitems, Hall. rewrite Hnone in Hall.
    apply Forall2_nil_inv_l in Hall as ->.
    exists NoStationsDefined. cbn [mbind outcome_bind].
    by rewrite bool_decide_true.
  - intros Hfs. by rewrite (parse_input_file_lines _ _ _ Hfs).
Qed.

(** [test_missing_stations_section] of the repository: a file with only a
    Reports section. *)
Lemma parse_requires_station_witness :
  ∃ e, parse_input_file
         (λ _, FileLines ["[Charger Availability Reports]"; "1001 0 100 true"])
         "input.txt" = Raise e.
Proof.
  apply (proj1 (proj2 (parse_requires_station
           (λ _, FileLines ["[Charger Availability Reports]";
                            "1001 0 100 true"]) "input.txt"))
           ["[Charger Availability Reports]"; "1001 0 100 true"]).
  - reflexivity.
  - vm_compute. reflexivity.
Defined.


(** The same holds of a missing file. *)
Example missing_file_without_line_number :
  parse_input_file (λ _, FileMissing) "nonexistent_file.txt"
  = Raise (FileNotFound "nonexistent_file.txt") ∧
  message (FileNotFound "nonexistent_file.txt")
  = "Input file not found: nonexistent_file.txt" ∧
  error_line (FileNotFound "nonexistent_file.txt") = None.
Proof. repeat split. Qed.

(** A token of twenty digits is refused with the number of its line. *)
Example long_token_names_line :
  parse_text ["[Stations]"; "0 12345678901234567890"]
  = Raise (ChargerIdOutOfRange 2).
Proof. vm_compute. reflexivity. Qed.

(** A token of 4301 digits is not: the error of [int] is not an "invalid
    literal", and the handler that puts the line number on the errors of
    [int] lets it through as it is. *)
Example digit_limit_without_line_number :
  parse_text ["[Stations]"; String.concat "" (replicate 4301 "1")]
  = Raise (IntStrDigitsLimit 4301) ∧
  error_line (IntStrDigitsLimit 4301) = None.
Proof. split; [vm_compute; reflexivity|reflexivity]. Qed.



(** C10. The parser does not require the Stations section to be complete
    before the reports begin. After any lines that were read without
    error, each header switches the current section, whatever it was; a
    station line is then accepted on the same conditions as before, reports
    or not; and a well-formed report line is accepted exactly when its
    charger was declared on a station line read before it, and refused as
    an unknown charger otherwise. *)
Theorem sections_may_interleave before st n :
  parse_lines initial_state 1 before = Ok st →
  parse_line st (n, "[Stations]") = Ok (set_section st SecStations) ∧
  parse_line st (n, "[Charger Availability Reports]")
    = Ok (set_section st SecReports) ∧
  (∀ line sid cs,
     current_section st = Some SecStations →
     station_tokens line sid cs →
     sid ∉ (stations st).*1 → NoDup cs →
     Forall (λ c, ¬ declared_in before c) cs →
     parse_line st (n, line) = Ok (add_station st sid cs)) ∧
  (∀ line r,
     current_section st = Some SecReports →
     report_tokens line r →
     (declared_in before (charger_of r) →
        parse_line st (n, line) = Ok (add_report st r)) ∧
     (¬ declared_in before (charger_of r) →
        parse_line st (n, line) = Raise (UnknownCharger (charger_of r) n))).
Proof.
  intros Hbefore.
  assert (state_inv st) as Hinv
    by (eapply state_inv_parse_lines; [apply state_inv_initial|done]).
  split; [done|]. split; [done|]. split.
  - intros line sid cs Hsec Htok Hfresh Hnd Hnew.
    apply station_line_complete; [done..|].
    eapply Forall_impl; [exact Hnew|]. intros c Hc Hl. apply Hc.
    by apply (listed_declared before st).
  - intros line r Hsec Htok.
    rewrite (report_line_known n st line r Hinv Hsec Htok).
    split; intros Hd.
    + rewrite decide_True; [done|]. by apply (listed_declared before st).
    + rewrite decide_False; [done|]. intros Hl. apply Hd.
      by apply (listed_declared before st).
Qed.

(** A [[Stations]] header after report lines switches back. *)
Lemma sections_may_interleave_witness :
  parse_line
    {| current_section := Some SecReports;
       charger_to_station := {[ 1 := 0 ]};
       stations := [(0, [1])];
       reports := [(1, 0, 10, true)] |}
    (5%nat, "[Stations]")
  = Ok {| current_section := Some SecStations;
          charger_to_station := {[ 1 := 0 ]};
          stations := [(0, [1])];
          reports := [(1, 0, 10, true)] |}.
Proof.
  refine (proj1 (sections_may_interleave
            ["[Stations]"; "0 1"; "[Charger Availability Reports]";
             "1 0 10 true"] _ 5 _)).
  vm_compute. reflexivity.
Defined.

(** Sections that repeat and interleave: station 1 and its charger are
    declared after the first report, and reported on afterwards. *)
Example interleaved_sections :
  parse_text
    ["[Stations]"; "0 1"; "[Charger Availability Reports]"; "1 0 10 true";
     "[Stations]"; "1 2"; "[Charger Availability Reports]"; "2 5 6 false"]
  = Ok ([(0, [1]); (1, [2])], [(1, 0, 10, true); (2, 5, 6, false)]).
Proof. vm_compute. reflexivity. Qed.

(** A report that comes before the declaration of its charger is refused. *)
Example report_before_declaration :
  parse_text
    ["[Charger Availability Reports]"; "1 0 10 true"; "[Stations]"; "0 1"]
  = Raise (UnknownCharger 1 2).
Proof. vm_compute. reflexivity. Qed.

(** * Further properties of [merge_intervals] and [calculate_total_time] *)

Lemma sweep_elem_end cur rest x :
  x ∈ sweep cur rest → x.2 = cur.2 ∨ ∃ y, y ∈ rest ∧ x.2 = y.2.
Proof.
  revert cur. induction rest as [|[s e] rest IH]; intros cur; simpl.
  - rewrite list_elem_of_singleton. intros ->. by left.
  - case_bool_decide.
    + intros [Heq|(y & ? & ?)]%IH.
      * simpl in Heq. destruct (Z.max_spec cur.2 e) as [[_ Hm]|[_ Hm]];
          rewrite Hm in Heq.
        -- right. exists (s, e). split; [by left|done].
        -- by left.
      * right. exists y. split; [by right|done].
    + intros [->|[?|(y & ? & ?)]%IH]%elem_of_cons; [by left|..].
      * right. exists (s, e). split; [by left|done].
      * right. exists y. split; [by right|done].
Qed.

Lemma sweep_length cur rest : (length (sweep cur rest) ≤ S (length rest))%nat.
Proof.
  revert cur. induction rest as [|[s e] rest IH]; intros cur; simpl; [done|].
  case_bool_decide; simpl.
  - specialize (IH (cur.1, cur.2 `max` e)). lia.
  - specialize (IH (s, e)). lia.
Qed.

Lemma sweep_contains cur rest :
  sorted_by_start (cur :: rest) →
  Forall (λ y, ∃ m, m ∈ sweep cur rest ∧ m.1 ≤ y.1 ∧ y.2 ≤ m.2) (cur :: rest).
Proof.
  unfold sorted_by_start.
  revert cur. induction rest as [|[s e] rest IH]; intros cur Hs.
  { constructor; [|constructor]. exists cur. split; [by left|lia]. }
  apply StronglySorted_inv in Hs as [Hs Hc].
  pose proof Hs as Hs'.
  apply StronglySorted_inv in Hs as [Hs Hse].
  apply Forall_cons in Hc as [Hcs Hc]. simpl in Hcs.
  cbn [sweep]. case_bool_decide as Hov.
  - assert (StronglySorted (λ a b : interval, a.1 ≤ b.1)
              ((cur.1, cur.2 `max` e) :: rest)) as Hnew by (by constructor).
    apply IH in Hnew. apply Forall_cons in Hnew as [(m & Hm & Hm1 & Hm2) Hrest].
    simpl in Hm1, Hm2.
    constructor; [|constructor; [|done]].
    + exists m. split; [done|]. lia.
    + exists m. split; [done|]. simpl. lia.
  - apply IH in Hs'. constructor.
    + exists cur. split; [by left|lia].
    + eapply Forall_impl; [exact Hs'|]. intros y (m & Hm & ?).
      exists m. split; [by right|done].
Qed.

(** X1. The result of [merge_intervals] does not depend on the order of
    the input. *)
Theorem merge_intervals_permutation (l1 l2 : list interval) :
  l1 ≡ₚ l2 → merge_intervals l1 = merge_intervals l2.
Proof.
  intros Hp. rewrite !merge_intervals_merged_of. f_equal.
  unfold merged_of. by rewrite (sorted_perm_eq l1 l2).
Qed.

Lemma merge_intervals_permutation_witness :
  merge_intervals [(20, 60); (50, 100); (0, 30)]
  = merge_intervals [(50, 100); (0, 30); (20, 60)].
Proof.
  apply merge_intervals_permutation.
  apply (Permutation_cons_append [(50, 100); (0, 30)] (20, 60)).
Defined.

(** X2. No input interval is lost or cut: every interval of the input lies
    inside one interval of the result. *)
Theorem merge_intervals_contains_input intervals merged :
  merge_intervals intervals = Ok merged →
  Forall (λ iv, ∃ m, m ∈ merged ∧ m.1 ≤ iv.1 ∧ iv.2 ≤ m.2) intervals.
Proof.
  rewrite merge_intervals_merged_of. intros [= <-].
  rewrite <-(sorted_Permutation intervals) at 1.
  unfold merged_of. pose proof (sorted_sorted_by_start intervals) as Hs.
  destruct (sorted intervals); [constructor|]. by apply sweep_contains.
Qed.

Lemma merge_intervals_contains_input_witness :
  Forall (λ iv : interval,
            ∃ m, m ∈ [(0, 80); (100, 120)] ∧ m.1 ≤ iv.1 ∧ iv.2 ≤ m.2)
         [(0, 30); (20, 50); (40, 80); (100, 120)].
Proof.
  apply (merge_intervals_contains_input
           [(0, 30); (20, 50); (40, 80); (100, 120)]).
  vm_compute. reflexivity.
Defined.

(** X3. The result has no more intervals than the input, it is empty only
    for the empty input, and its intervals start where an input interval
    starts and end where an input interval ends. *)
Theorem merge_intervals_endpoints intervals merged :
  merge_intervals intervals = Ok merged →
  (length merged ≤ length intervals)%nat ∧
  (merged = [] ↔ intervals = []) ∧
  Forall (λ m, m.1 ∈ intervals.*1 ∧ m.2 ∈ intervals.*2) merged.
Proof.
  rewrite merge_intervals_merged_of. intros [= <-].
  pose proof (sorted_Permutation intervals) as Hp.
  unfold merged_of. destruct (sorted intervals) as [|first rest] eqn:Hsorted.
  { apply Permutation_nil_l in Hp as <-. by split. }
  split; [|split].
  - rewrite <-Hp. apply sweep_length.
  - destruct (sweep_head first rest) as (e' & tl & -> & _).
    split; [done|]. intros ->. by apply Permutation_nil_r in Hp.
  - apply Forall_forall. intros m Hm. split.
    + rewrite <-Hp. apply sweep_elem_start in Hm as [->|(y & Hy & ->)].
      * apply list_elem_of_fmap_2. by left.
      * apply list_elem_of_fmap_2. by right.
    + rewrite <-Hp. apply sweep_elem_end in Hm as [->|(y & Hy & ->)].
      * apply list_elem_of_fmap_2. by left.
      * apply list_elem_of_fmap_2. by right.
Qed.

Lemma merge_intervals_endpoints_witness :
  (length [(0, 100)] ≤ length [(50, 100); (0, 30); (20, 60)])%nat.
Proof.
  refine (proj1 (merge_intervals_endpoints
                   [(50, 100); (0, 30); (20, 60)] [(0, 100)] _)).
  vm_compute. reflexivity.
Defined.

Lemma separated_lex_sorted (l : list interval) :
  Forall interval_wf l → strictly_apart l → Sorted tuple_le l.
Proof.
  unfold strictly_apart. intros Hwf Hs. apply StronglySorted_Sorted.
  induction Hs as [|a l Hs IH Ha]; [constructor|].
  apply Forall_cons in Hwf as [Hwa Hwf]. constructor; [by apply IH|].
  eapply Forall_impl; [exact Ha|]. intros b Hb.
  unfold tuple_le, interval_wf in *. simpl in *. lia.
Qed.

(** X4. A list of intervals, none ending before it starts, each ending
    strictly before every later one starts, is returned as it is. *)
Theorem merge_intervals_separated_fixed (intervals : list interval) :
  Forall interval_wf intervals → strictly_apart intervals →
  merge_intervals intervals = Ok intervals.
Proof.
  intros Hwf Hs. rewrite merge_intervals_merged_of. f_equal.
  apply merged_of_fixed; [by apply separated_lex_sorted|].
  by apply StronglySorted_Sorted.
Qed.

Lemma merge_intervals_separated_fixed_witness :
  merge_intervals [(0, 10); (20, 30); (40, 50)]
  = Ok [(0, 10); (20, 30); (40, 50)].
Proof.
  apply merge_intervals_separated_fixed.
  - repeat constructor; unfold interval_wf; simpl; lia.
  - unfold strictly_apart.
    repeat (constructor; [|repeat constructor; simpl; lia]). constructor.
Defined.

Lemma length_filter_or_le (P Q : Z → Prop)
    `{!∀ t, Decision (P t), !∀ t, Decision (Q t)} (l : list Z) :
  (length (filter (λ t, P t ∨ Q t) l)
   ≤ length (filter P l) + length (filter Q l))%nat.
Proof.
  induction l as [|x l IH]; [done|].
  rewrite !filter_cons.
  destruct (decide (P x)), (decide (Q x)), (decide (P x ∨ Q x));
    simpl; try lia; tauto.
Qed.

Lemma measure_covers_le lo hi (l : list interval) :
  Forall (within lo hi) l → measure (covers l) lo hi ≤ calculate_total_time l.
Proof.
  induction 1 as [|[s e] l (? & ? & ?) Hl IH]; simpl in *.
  - unfold measure. rewrite length_filter_none; [done|].
    apply Forall_forall. intros t _. apply covers_nil.
  - rewrite calculate_total_time_cons. simpl.
    rewrite (measure_ext (covers ((s, e) :: l))
               (λ t, s ≤ t < e ∨ covers l t)).
    2:{ intros t _. apply covers_cons. }
    rewrite <-(measure_interval lo hi s e) by done.
    unfold measure in *.
    pose proof (length_filter_or_le (λ t, s ≤ t < e) (covers l)
                  (seqZ lo (hi - lo))). lia.
Qed.

(** X5. [calculate_total_time] counts overlap twice: on intervals that do
    not end before they start it is at least the length of their union,
    it is that length when the intervals are strictly apart, and merging
    first never gives more. *)
Theorem calculate_total_time_overcounts (intervals merged : list interval) :
  Forall interval_wf intervals →
  merge_intervals intervals = Ok merged →
  union_length intervals ≤ calculate_total_time intervals ∧
  calculate_total_time merged ≤ calculate_total_time intervals ∧
  (strictly_apart intervals →
     calculate_total_time intervals = union_length intervals).
Proof.
  intros Hwf. rewrite merge_intervals_merged_of. intros [= <-].
  assert (union_length intervals ≤ calculate_total_time intervals) as Hle.
  { destruct intervals as [|[s e] l]; [done|].
    unfold union_length. by apply measure_covers_le, hull_within. }
  split; [done|]. split.
  - by rewrite merged_of_union_length.
  - intros Hs. rewrite <-merged_of_union_length by done.
    f_equal. symmetry. apply merged_of_fixed; [by apply separated_lex_sorted|].
    by apply StronglySorted_Sorted.
Qed.

Lemma calculate_total_time_overcounts_witness :
  union_length [(0, 30); (20, 50)] ≤ calculate_total_time [(0, 30); (20, 50)].
Proof.
  refine (proj1 (calculate_total_time_overcounts
                   [(0, 30); (20, 50)] [(0, 50)] _ _)).
  - repeat constructor; unfold interval_wf; simpl; lia.
  - vm_compute. reflexivity.
Defined.

Example calculate_total_time_double_counts :
  calculate_total_time [(0, 30); (20, 50)] = 60 ∧
  union_length [(0, 30); (20, 50)] = 50.
Proof. split; vm_compute; reflexivity. Qed.

(** * Further properties of [calculate_station_uptime] *)

Lemma grouped_owned stations sid reports :
  Forall (λ t, ∃ r, r ∈ reports_of stations sid reports ∧ t = triple_of r)
         (grouped (build_charger_to_station stations) sid reports).
Proof.
  unfold grouped, reports_of. apply Forall_fmap, Forall_forall.
  intros r [Hc Hr]%list_elem_of_filter. exists r. split; [|done].
  apply list_elem_of_filter. split; [|done].
  by apply charger_to_station_owns.
Qed.

Lemma collect_up_never_up (l : list (Z * Z * bool)) :
  Forall (λ t, t.2 = false) l → collect_up l = [].
Proof.
  intros Hl. rewrite collect_up_filter.
  induction Hl as [|t l Ht _ IH]; [done|].
  rewrite filter_cons_False; [done|]. by rewrite Ht.
Qed.

Lemma uptime_of_never_up (l : list (Z * Z * bool)) :
  Forall (λ t, t.2 = false) l → uptime_of l = 0.
Proof.
  intros Hl. unfold uptime_of. destruct l as [|r l]; [done|].
  rewrite (collect_up_never_up _ Hl). case_bool_decide; [done|].
  apply Zdiv_0_l.
Qed.

(** X6. A station all of whose reports say the charger is down has
    uptime 0, whatever the window. *)
Theorem uptime_zero_when_never_up stations reports uptimes sid :
  calculate_station_uptime stations reports = Ok uptimes →
  sid ∈ stations.*1 →
  Forall (λ r, up_of r = false) (reports_of stations sid reports) →
  uptimes !! sid = Some 0.
Proof.
  intros Hcalc Hsid Hdown.
  pose proof (calculate_station_uptime_inv _ _ _ Hcalc) as Hk.
  destruct (calculate_station_uptime_Ok stations reports Hk)
    as (uptimes' & Hcalc' & Hlook).
  assert (uptimes' = uptimes) as -> by congruence.
  rewrite Hlook, decide_True by done. f_equal.
  apply uptime_of_never_up.
  eapply Forall_impl; [apply grouped_owned|].
  intros t (r & Hr & ->).
  exact (proj1 (Forall_forall _ _) Hdown r Hr).
Qed.

Lemma uptime_zero_when_never_up_witness :
  ({[ 0 := 0 ]} : gmap Z Z) !! 0 = Some 0.
Proof.
  apply (uptime_zero_when_never_up [(0, [1001])]
           [(1001, 0, 100, false); (1001, 150, 170, false)]).
  - vm_compute. reflexivity.
  - apply (bool_decide_unpack _). vm_compute. exact I.
  - apply (bool_decide_unpack _). vm_compute. exact I.
Defined.

Lemma length_filter_full (P : Z → Prop) `{!∀ t, Decision (P t)} l :
  length (filter P l) = length l → Forall P l.
Proof.
  induction l as [|x l IH]; [constructor|].
  rewrite filter_cons. pose proof (length_filter P l).
  case_decide; simpl; intros Hlen; [|lia].
  constructor; [done|]. apply IH. lia.
Qed.

Lemma measure_full (P : Z → Prop) `{!∀ t, Decision (P t)} lo hi :
  lo ≤ hi → measure P lo hi = hi - lo ↔ ∀ t, lo ≤ t < hi → P t.
Proof.
  intros Hle. unfold measure. split.
  - intros Hm t Ht. assert (Forall P (seqZ lo (hi - lo))) as Hall.
    { apply (length_filter_full P). rewrite length_seqZ. lia. }
    rewrite Forall_seqZ in Hall. apply Hall. lia.
  - intros Hall. rewrite length_filter_all, length_seqZ; [lia|].
    apply Forall_seqZ. intros t Ht. apply Hall. lia.
Qed.

(** X7. With reports that start before they end, a station has uptime
    100 exactly when some up report covers every instant of its window,
    from the least start to the greatest end of its reports. *)
Theorem uptime_full_when_always_up stations reports uptimes sid lo hi :
  chargers_unique stations →
  calculate_station_uptime stations reports = Ok uptimes →
  sid ∈ stations.*1 →
  Forall (λ r, start_of r < end_of r) (reports_of stations sid reports) →
  is_min lo (start_of <$> reports_of stations sid reports) →
  is_max hi (end_of <$> reports_of stations sid reports) →
  uptimes !! sid = Some 100 ↔
  ∀ t, lo ≤ t < hi →
       covers (up_intervals_of (reports_of stations sid reports)) t.
Proof.
  intros Hu Hcalc Hsid Hvalid Hlo Hhi.
  pose proof (calculate_station_uptime_inv _ _ _ Hcalc) as Hk.
  destruct (calculate_station_uptime_Ok stations reports Hk)
    as (uptimes' & Hcalc' & Hlook).
  assert (uptimes' = uptimes) as -> by congruence.
  rewrite Hlook, decide_True by done.
  rewrite grouped_reports_of by done.
  rewrite (uptime_of_reports _ lo hi) by done.
  destruct (valid_reports_window _ lo hi Hvalid Hlo Hhi) as (Hlt & Hup & ->).
  rewrite bool_decide_false by lia.
  assert (Forall (λ r, start_of r ≤ end_of r)
            (reports_of stations sid reports)) as Hwf.
  { eapply Forall_impl; [exact Hvalid|]. simpl. lia. }
  destruct Hlo as [_ Hlo]. destruct Hhi as [_ Hhi].
  pose proof (up_intervals_within _ lo hi Hwf Hlo Hhi) as Hin.
  rewrite (union_length_window lo hi) in * by done.
  rewrite <-(measure_full _ lo hi) by lia.
  set (up := measure _ lo hi) in *. split.
  - intros [= Hdiv].
    assert (100 * (hi - lo) ≤ up * 100).
    { pose proof (Z.mul_div_le (up * 100) (hi - lo) ltac:(lia)).
      pose proof (floor_div (up * 100) (hi - lo) ltac:(lia)) as Hf.
      apply is_floor_pos in Hf; [|lia]. lia. }
    lia.
  - intros ->. f_equal. rewrite Z.mul_comm. apply Z.div_mul. lia.
Qed.

Lemma uptime_full_when_always_up_witness :
  ({[ 0 := 100 ]} : gmap Z Z) !! 0 = Some 100 ↔
  ∀ t, 0 ≤ t < 100 →
       covers (up_intervals_of
                 (reports_of [(0, [1001; 1002])] 0
                    [(1001, 0, 60, true); (1002, 40, 100, true)])) t.
Proof.
  apply (uptime_full_when_always_up [(0, [1001; 1002])]
           [(1001, 0, 60, true); (1002, 40, 100, true)]).
  - intros c s1 s2 H1 H2. unfold owns in *.
    apply Exists_cons in H1 as [[<- _]|H1]; [|by apply Exists_nil in H1].
    apply Exists_cons in H2 as [[<- _]|H2]; [|by apply Exists_nil in H2].
    reflexivity.
  - vm_compute. reflexivity.
  - apply (bool_decide_unpack _). vm_compute. exact I.
  - apply (bool_decide_unpack _). vm_compute. exact I.
  - apply (bool_decide_unpack _). vm_compute. exact I.
  - apply (bool_decide_unpack _). vm_compute. exact I.
Defined.

(** X8. Stations are computed independently: the uptime of a station
    depends on the reports on its own chargers only. *)
Theorem uptime_station_independent stations reports1 reports2 u1 u2 sid :
  chargers_unique stations →
  calculate_station_uptime stations reports1 = Ok u1 →
  calculate_station_uptime stations reports2 = Ok u2 →
  reports_of stations sid reports1 = reports_of stations sid reports2 →
  u1 !! sid = u2 !! sid.
Proof.
  intros Hu Hc1 Hc2 Heq.
  pose proof (calculate_station_uptime_inv _ _ _ Hc1) as Hk1.
  pose proof (calculate_station_uptime_inv _ _ _ Hc2) as Hk2.
  destruct (calculate_station_uptime_Ok stations reports1 Hk1)
    as (u1' & Hu1 & Hl1).
  destruct (calculate_station_uptime_Ok stations reports2 Hk2)
    as (u2' & Hu2 & Hl2).
  assert (u1' = u1) as -> by congruence.
  assert (u2' = u2) as -> by congruence.
  rewrite Hl1, Hl2. case_decide; [|done].
  by rewrite !grouped_reports_of, Heq.
Qed.

Lemma uptime_station_independent_witness :
  ({[ 0 := 50; 1 := 0 ]} : gmap Z Z) !! 0
  = ({[ 0 := 50; 1 := 100 ]} : gmap Z Z) !! 0.
Proof.
  apply (uptime_station_independent [(0, [1001]); (1, [1002])]
           [(1001, 0, 50, true); (1001, 50, 100, false)]
           [(1002, 7, 9, true); (1001, 0, 50, true); (1001, 50, 100, false)]).
  - intros c s1 s2 H1 H2. unfold owns in *.
    apply Exists_cons in H1 as [[<- Hc1]|H1], H2 as [[<- Hc2]|H2];
      [reflexivity|..].
    + apply Exists_cons in H2 as [[<- Hc2]|H2]; [|by apply Exists_nil in H2].
      simpl in *. apply list_elem_of_singleton in Hc1, Hc2. congruence.
    + apply Exists_cons in H1 as [[<- Hc1]|H1]; [|by apply Exists_nil in H1].
      simpl in *. apply list_elem_of_singleton in Hc1, Hc2. congruence.
    + apply Exists_cons in H1 as [[<- _]|H1]; [|by apply Exists_nil in H1].
      apply Exists_cons in H2 as [[<- _]|H2]; [|by apply Exists_nil in H2].
      reflexivity.
  - vm_compute. reflexivity.
  - vm_compute. reflexivity.
  - vm_compute. reflexivity.
Defined.

(** X9. With reports that start before they end, the uptime of a station
    is determined by its window and by the instants its up reports cover:
    reports that overlap, repeat, or split an interval in two change
    nothing. *)
Theorem uptime_depends_on_coverage stations1 reports1 u1 sid1
    stations2 reports2 u2 sid2 lo hi :
  chargers_unique stations1 → chargers_unique stations2 →
  calculate_station_uptime stations1 reports1 = Ok u1 →
  calculate_station_uptime stations2 reports2 = Ok u2 →
  sid1 ∈ stations1.*1 → sid2 ∈ stations2.*1 →
  Forall (λ r, start_of r < end_of r) (reports_of stations1 sid1 reports1) →
  Forall (λ r, start_of r < end_of r) (reports_of stations2 sid2 reports2) →
  is_min lo (start_of <$> reports_of stations1 sid1 reports1) →
  is_min lo (start_of <$> reports_of stations2 sid2 reports2) →
  is_max hi (end_of <$> reports_of stations1 sid1 reports1) →
  is_max hi (end_of <$> reports_of stations2 sid2 reports2) →
  (∀ t, covers (up_intervals_of (reports_of stations1 sid1 reports1)) t ↔
        covers (up_intervals_of (reports_of stations2 sid2 reports2)) t) →
  u1 !! sid1 = u2 !! sid2.
Proof.
  intros Hu1 Hu2 Hc1 Hc2 Hs1 Hs2 Hv1 Hv2 Hlo1 Hlo2 Hhi1 Hhi2 Hcov.
  pose proof (calculate_station_uptime_inv _ _ _ Hc1) as Hk1.
  pose proof (calculate_station_uptime_inv _ _ _ Hc2) as Hk2.
  destruct (calculate_station_uptime_Ok stations1 reports1 Hk1)
    as (u1' & Hu1' & Hl1).
  destruct (calculate_station_uptime_Ok stations2 reports2 Hk2)
    as (u2' & Hu2' & Hl2).
  assert (u1' = u1) as -> by congruence.
  assert (u2' = u2) as -> by congruence.
  rewrite Hl1, Hl2, !decide_True by done.
  rewrite !grouped_reports_of by done.
  rewrite (uptime_of_reports _ lo hi Hlo1 Hhi1).
  rewrite (uptime_of_reports _ lo hi Hlo2 Hhi2).
  destruct (valid_reports_window _ lo hi Hv1 Hlo1 Hhi1) as (_ & _ & ->).
  destruct (valid_reports_window _ lo hi Hv2 Hlo2 Hhi2) as (_ & _ & ->).
  assert (∀ rs, Forall (λ r, start_of r < end_of r) rs →
                is_min lo (start_of <$> rs) → is_max hi (end_of <$> rs) →
                union_length (up_intervals_of rs)
                = measure (covers (up_intervals_of rs)) lo hi) as Hlen.
  { intros rs Hv [_ Hlo] [_ Hhi]. apply union_length_window.
    apply up_intervals_within; [|done..].
    eapply Forall_impl; [exact Hv|]. simpl. lia. }
  rewrite !Hlen by done.
  by rewrite (measure_ext _ _ lo hi (λ t _, Hcov t)).
Qed.

Lemma uptime_depends_on_coverage_witness :
  ({[ 0 := 50 ]} : gmap Z Z) !! 0 = ({[ 7 := 50 ]} : gmap Z Z) !! 7.
Proof.
  apply (uptime_depends_on_coverage
           [(0, [1])]
           [(1, 0, 10, true); (1, 10, 20, true); (1, 5, 15, true);
            (1, 20, 40, false)]
           _ _
           [(7, [2; 3])] [(2, 0, 20, true); (3, 0, 40, false)] _ _ 0 40).
  - intros c s1 s2 H1 H2. unfold owns in *.
    apply Exists_cons in H1 as [[<- _]|H1]; [|by apply Exists_nil in H1].
    apply Exists_cons in H2 as [[<- _]|H2]; [|by apply Exists_nil in H2].
    reflexivity.
  - intros c s1 s2 H1 H2. unfold owns in *.
    apply Exists_cons in H1 as [[<- _]|H1]; [|by apply Exists_nil in H1].
    apply Exists_cons in H2 as [[<- _]|H2]; [|by apply Exists_nil in H2].
    reflexivity.
  - vm_compute. reflexivity.
  - vm_compute. reflexivity.
  - apply (bool_decide_unpack _). vm_compute. exact I.
  - apply (bool_decide_unpack _). vm_compute. exact I.
  - apply (bool_decide_unpack _). vm_compute. exact I.
  - apply (bool_decide_unpack _). vm_compute. exact I.
  - apply (bool_decide_unpack _). vm_compute. exact I.
  - apply (bool_decide_unpack _). vm_compute. exact I.
  - apply (bool_decide_unpack _). vm_compute. exact I.
  - apply (bool_decide_unpack _). vm_compute. exact I.
  - intros t.
    change (up_intervals_of _) with [(0, 10); (10, 20); (5, 15)] at 1.
    change (up_intervals_of _) with [(0, 20)].
    unfold covers. rewrite !Exists_cons, !Exists_nil. simpl. lia.
Defined.

(** X10. The first report on a charger that no station lists makes
    [calculate_station_uptime] raise [KeyError] with that charger. *)
Theorem unknown_charger_key_error stations before r after :
  chargers_known stations before →
  ¬ listed stations (charger_of r) →
  calculate_station_uptime stations (before ++ r :: after)
  = Raise (KeyError (charger_of r)).
Proof.
  intros Hk Hr. unfold calculate_station_uptime. rewrite for_each_app.
  destruct (group_loop (build_charger_to_station stations) before
              (empty_station_reports stations)) as (sr & -> & _).
  { eapply Forall_impl; [exact Hk|]. intros x Hx.
    apply charger_to_station_known in Hx as [sid Hsid].
    exists sid. split; [done|].
    rewrite empty_station_reports_lookup, decide_True; [done|].
    eapply owns_key, charger_to_station_owns, Hsid. }
  cbn [mbind outcome_bind for_each].
  destruct r as [[[c s] e] u]. unfold charger_of in *. cbn [fst] in *.
  unfold group_step, dict_getitem.
  destruct (build_charger_to_station stations !! c) as [sid|] eqn:Hc; [|done].
  destruct Hr. apply charger_to_station_known. eauto.
Qed.

Lemma unknown_charger_key_error_witness :
  calculate_station_uptime [(0, [1001])]
    [(1001, 0, 100, true); (9999, 0, 100, true); (8888, 0, 1, true)]
  = Raise (KeyError 9999).
Proof.
  apply (unknown_charger_key_error [(0, [1001])] [(1001, 0, 100, true)]
           (9999, 0, 100, true) [(8888, 0, 1, true)]).
  - apply (bool_decide_unpack _). vm_compute. exact I.
  - apply (bool_decide_unpack _). vm_compute. exact I.
Defined.

Lemma charger_to_station_acc_not_listed stations (m : gmap Z Z) c :
  ¬ listed stations c →
  foldl (λ c2s '(station_id, charger_ids),
           foldl (λ c2s' charger_id, <[charger_id := station_id]> c2s')
                 c2s charger_ids) m stations !! c = m !! c.
Proof.
  revert m. induction stations as [|[s cs] stations IH]; intros m Hn; [done|].
  cbn [foldl]. rewrite IH.
  - rewrite insert_chargers_lookup, decide_False; [done|].
    intros Hc. apply Hn. by apply Exists_cons_hd.
  - intros Hl. apply Hn. by apply Exists_cons_tl.
Qed.

Lemma charger_to_station_last before sid cs after c :
  c ∈ cs → ¬ listed after c →
  build_charger_to_station (before ++ (sid, cs) :: after) !! c = Some sid.
Proof.
  intros Hc Hn. unfold build_charger_to_station.
  rewrite foldl_app. cbn [foldl].
  rewrite charger_to_station_acc_not_listed by done.
  by rewrite insert_chargers_lookup, decide_True.
Qed.

(** X11. When a charger is listed under several stations, the lookup
    [charger_to_station] gives the station that lists it last in the
    mapping, and the reports on it count for that station alone: if all
    the reports are on such chargers of one station, every other station
    has uptime 0. *)
Theorem charger_last_station_wins before sid cs after reports uptimes :
  Forall (λ r, charger_of r ∈ cs ∧ ¬ listed after (charger_of r)) reports →
  calculate_station_uptime (before ++ (sid, cs) :: after) reports
  = Ok uptimes →
  Forall (λ r, dict_getitem
                 (build_charger_to_station (before ++ (sid, cs) :: after))
                 (charger_of r) = Ok sid) reports ∧
  ∀ sid', sid' ∈ (before ++ (sid, cs) :: after).*1 → sid' ≠ sid →
          uptimes !! sid' = Some 0.
Proof.
  intros Hr Hcalc. split.
  - eapply Forall_impl; [exact Hr|]. intros r [Hc Hn].
    unfold dict_getitem. by rewrite charger_to_station_last.
  - intros sid' Hin Hne.
    pose proof (calculate_station_uptime_inv _ _ _ Hcalc) as Hk.
    destruct (calculate_station_uptime_Ok _ reports Hk)
      as (uptimes' & Hcalc' & Hlook).
    assert (uptimes' = uptimes) as -> by congruence.
    rewrite Hlook, decide_True by done. f_equal.
    assert (grouped (build_charger_to_station (before ++ (sid, cs) :: after))
              sid' reports = []) as ->; [|done].
    unfold grouped. clear Hcalc Hk Hcalc' Hlook.
    induction Hr as [|r reports [Hc Hn] _ IH]; [done|].
    rewrite filter_cons_False; [done|].
    rewrite charger_to_station_last by done. congruence.
Qed.

Lemma charger_last_station_wins_witness :
  ({[ 0 := 0; 1 := 100 ]} : gmap Z Z) !! 0 = Some 0.
Proof.
  refine (proj2 (charger_last_station_wins [(0, [1001])] 1 [1001] []
                   [(1001, 0, 100, true)] {[ 0 := 0; 1 := 100 ]} _ _) 0 _ _).
  - apply (bool_decide_unpack _). vm_compute. exact I.
  - vm_compute. reflexivity.
  - apply (bool_decide_unpack _). vm_compute. exact I.
  - lia.
Defined.

Lemma length_filter_mono (P Q : Z → Prop)
    `{!∀ t, Decision (P t), !∀ t, Decision (Q t)} (l : list Z) :
  (∀ t, t ∈ l → P t → Q t) →
  (length (filter P l) ≤ length (filter Q l))%nat.
Proof.
  induction l as [|x l IH]; intros Hpq; [done|].
  rewrite !filter_cons.
  assert (length (filter P l) ≤ length (filter Q l))%nat
    by (apply IH; intros; apply Hpq; [by right|done]).
  assert (P x → Q x) by (apply Hpq; by left).
  destruct (decide (P x)), (decide (Q x)); simpl; try lia. tauto.
Qed.

(** X21. With reports that start before they end and the same window,
    covering more instants with up reports never lowers the uptime. *)
Theorem uptime_monotone_in_coverage stations1 reports1 u1 sid1
    stations2 reports2 u2 sid2 lo hi v1 v2 :
  chargers_unique stations1 → chargers_unique stations2 →
  calculate_station_uptime stations1 reports1 = Ok u1 →
  calculate_station_uptime stations2 reports2 = Ok u2 →
  Forall (λ r, start_of r < end_of r) (reports_of stations1 sid1 reports1) →
  Forall (λ r, start_of r < end_of r) (reports_of stations2 sid2 reports2) →
  is_min lo (start_of <$> reports_of stations1 sid1 reports1) →
  is_min lo (start_of <$> reports_of stations2 sid2 reports2) →
  is_max hi (end_of <$> reports_of stations1 sid1 reports1) →
  is_max hi (end_of <$> reports_of stations2 sid2 reports2) →
  (∀ t, covers (up_intervals_of (reports_of stations1 sid1 reports1)) t →
        covers (up_intervals_of (reports_of stations2 sid2 reports2)) t) →
  u1 !! sid1 = Some v1 → u2 !! sid2 = Some v2 →
  v1 ≤ v2.
Proof.
  intros Hu1 Hu2 Hc1 Hc2 Hv1 Hv2 Hlo1 Hlo2 Hhi1 Hhi2 Hcov Hl1' Hl2'.
  pose proof (calculate_station_uptime_inv _ _ _ Hc1) as Hk1.
  pose proof (calculate_station_uptime_inv _ _ _ Hc2) as Hk2.
  destruct (calculate_station_uptime_Ok stations1 reports1 Hk1)
    as (u1' & Hu1' & Hl1).
  destruct (calculate_station_uptime_Ok stations2 reports2 Hk2)
    as (u2' & Hu2' & Hl2).
  assert (u1' = u1) as -> by congruence.
  assert (u2' = u2) as -> by congruence.
  rewrite Hl1 in Hl1'. rewrite Hl2 in Hl2'.
  case_decide; [|done]. case_decide; [|done].
  injection Hl1' as <-. injection Hl2' as <-.
  rewrite !grouped_reports_of by done.
  rewrite (uptime_of_reports _ lo hi Hlo1 Hhi1).
  rewrite (uptime_of_reports _ lo hi Hlo2 Hhi2).
  destruct (valid_reports_window _ lo hi Hv1 Hlo1 Hhi1) as (Hlt & _ & ->).
  destruct (valid_reports_window _ lo hi Hv2 Hlo2 Hhi2) as (_ & _ & ->).
  rewrite bool_decide_false by lia.
  assert (∀ rs, Forall (λ r, start_of r < end_of r) rs →
                is_min lo (start_of <$> rs) → is_max hi (end_of <$> rs) →
                union_length (up_intervals_of rs)
                = measure (covers (up_intervals_of rs)) lo hi) as Hlen.
  { intros rs Hv [_ Hlo] [_ Hhi]. apply union_length_window.
    apply up_intervals_within; [|done..].
    eapply Forall_impl; [exact Hv|]. simpl. lia. }
  rewrite !Hlen by done.
  apply Z.div_le_mono; [lia|]. apply Z.mul_le_mono_nonneg_r; [lia|].
  unfold measure. apply inj_le, length_filter_mono. intros t _. apply Hcov.
Qed.

Lemma uptime_monotone_in_coverage_witness : 25 ≤ 75.
Proof.
  apply (uptime_monotone_in_coverage
           [(0, [1])] [(1, 0, 10, true); (1, 10, 40, false)] {[ 0 := 25 ]} 0
           [(0, [1])] [(1, 0, 10, true); (1, 5, 30, true); (1, 30, 40, false)]
           {[ 0 := 75 ]} 0 0 40).
  - intros c s1 s2 H1 H2. unfold owns in *.
    apply Exists_cons in H1 as [[<- _]|H1]; [|by apply Exists_nil in H1].
    apply Exists_cons in H2 as [[<- _]|H2]; [|by apply Exists_nil in H2].
    reflexivity.
  - intros c s1 s2 H1 H2. unfold owns in *.
    apply Exists_cons in H1 as [[<- _]|H1]; [|by apply Exists_nil in H1].
    apply Exists_cons in H2 as [[<- _]|H2]; [|by apply Exists_nil in H2].
    reflexivity.
  - vm_compute. reflexivity.
  - vm_compute. reflexivity.
  - apply (bool_decide_unpack _). vm_compute. exact I.
  - apply (bool_decide_unpack _). vm_compute. exact I.
  - apply (bool_decide_unpack _). vm_compute. exact I.
  - apply (bool_decide_unpack _). vm_compute. exact I.
  - apply (bool_decide_unpack _). vm_compute. exact I.
  - apply (bool_decide_unpack _). vm_compute. exact I.
  - intros t.
    change (up_intervals_of _) with [(0, 10)] at 1.
    change (up_intervals_of _) with [(0, 10); (5, 30)].
    unfold covers. rewrite !Exists_cons, !Exists_nil. simpl. lia.
  - vm_compute. reflexivity.
  - vm_compute. reflexivity.
Defined.

(** * Further properties of [parse_input_file] *)

(** X12. A successful parse establishes the invariants of the data: the
    station IDs are distinct, no charger is listed twice, every report is
    on a listed charger and starts before it ends, the IDs fit 32 bits and
    the times 64 bits. *)
Theorem parse_establishes_invariants fs file_path stations reports :
  parse_input_file fs file_path = Ok (stations, reports) →
  parser_invariants stations reports.
Proof.
  unfold parse_input_file. destruct (fs file_path) as [| | |lines]; [done..|].
  apply parse_text_invariants.
Qed.

Lemma parse_establishes_invariants_witness :
  parser_invariants [(0, [1001; 1002]); (1, [1003])]
    [(1001, 0, 100, true); (1002, 50, 150, false); (1003, 0, 200, true)].
Proof.
  apply (parse_establishes_invariants
           (λ _, FileLines
              ["[Stations]"; "0 1001 1002"; "1 1003"; "";
               "[Charger Availability Reports]";
               "1001 0 100 true"; "1002 50 150 false"; "1003 0 200 true"])
           "input.txt").
  vm_compute. reflexivity.
Defined.

Lemma station_key_declared before st sid :
  parse_lines initial_state 1 before = Ok st →
  sid ∈ (stations st).*1 ↔ station_declared_in before sid.
Proof.
  intros (items & Hitems & Hall)%parse_lines_stations.
  simpl in Hitems, Hall. rewrite Hitems. unfold station_declared_in.
  rewrite list_elem_of_fmap. split.
  - intros (item & -> & (i & Hi)%list_elem_of_lookup).
    destruct (Forall2_lookup_r _ _ _ _ _ Hall Hi) as (line & Hline & Htok).
    exists line, item.2. split; [|done]. apply list_elem_of_lookup. eauto.
  - intros (line & cs & (i & Hi)%list_elem_of_lookup & Htok).
    destruct (Forall2_lookup_l _ _ _ _ _ Hall Hi) as (item & Hitem & Htok').
    destruct (station_tokens_functional _ _ _ _ _ Htok Htok') as [-> ->].
    exists item. split; [done|]. apply list_elem_of_lookup. eauto.
Qed.

Lemma station_line_duplicate_station n st line sid cs :
  state_inv st →
  current_section st = Some SecStations →
  station_tokens line sid cs →
  sid ∈ (stations st).*1 → NoDup cs →
  Forall (λ c, ¬ listed (stations st) c) cs →
  parse_line st (n, line) = Raise (DuplicateStation sid n).
Proof.
  intros (_ & _ & Hc2s & _) Hsec
    (Hkind & token & tokens & Hsplit & Hsid & Htok & Hrs & Hrc) Hdup Hnd Hnl.
  rewrite app_nil_r in Hsplit.
  rewrite parse_line_kind, Hkind, Hsec. unfold station_line. rewrite Hsplit.
  apply int_at_Ok with (n := n) in Hsid. rewrite Hsid.
  cbn [mbind outcome_bind]. unfold in_uint32, UINT32_MAX in Hrs.
  rewrite bool_decide_false by lia.
  rewrite (charger_loop_complete n sid tokens cs Htok); [|done..|].
  - cbn [mbind outcome_bind]. by rewrite bool_decide_true.
  - eapply Forall_impl; [exact Hnl|]. intros c Hc.
    destruct (charger_to_station st !! c) eqn:E; [|done].
    destruct Hc. apply Hc2s. eauto.
Qed.

(** X13. A station line that declares again a station ID of an earlier
    station line, with chargers that are new, is rejected with the
    duplicate-station error naming that line. *)
Theorem duplicate_station_rejected fs file_path before line after st sid cs :
  fs file_path = FileLines (before ++ line :: after) →
  parse_lines initial_state 1 before = Ok st →
  current_section st = Some SecStations →
  station_tokens line sid cs →
  station_declared_in before sid →
  NoDup cs → Forall (λ c, ¬ declared_in before c) cs →
  parse_input_file fs file_path
  = Raise (DuplicateStation sid (S (length before))).
Proof.
  intros Hfs Hbefore Hsec Htok Hdecl Hnd Hnew.
  rewrite (parse_input_file_lines _ _ _ Hfs). unfold parse_text.
  rewrite parse_lines_app, Hbefore. cbn [mbind outcome_bind].
  rewrite parse_lines_cons.
  change (1 + length before)%nat with (S (length before)).
  assert (state_inv st) as Hinv
    by (eapply state_inv_parse_lines; [apply state_inv_initial|done]).
  assert (sid ∈ (stations st).*1) as Hkey
    by (by apply (station_key_declared before st)).
  assert (Forall (λ c, ¬ listed (stations st) c) cs) as Hfresh.
  { eapply Forall_impl; [exact Hnew|]. intros c Hc Hl. apply Hc.
    by apply (listed_declared before st). }
  by rewrite (station_line_duplicate_station _ st line sid cs).
Qed.

Lemma station_tokens_example line token tokens sid cs :
  kind_of line = Data → split (strip line) = token :: tokens →
  py_int token = IntValue sid → tokens_are tokens cs →
  in_uint32 sid → Forall in_uint32 cs →
  station_tokens line sid cs.
Proof.
  intros Hk Hs. intros. split; [done|]. exists token, tokens.
  by rewrite app_nil_r.
Qed.

Lemma duplicate_station_rejected_witness :
  parse_input_file (λ _, FileLines ["[Stations]"; "0 1001"; "0 1002"])
                   "input.txt"
  = Raise (DuplicateStation 0 3).
Proof.
  assert (parse_lines initial_state 1 ["[Stations]"; "0 1001"]
          = Ok {| current_section := Some SecStations;
                  charger_to_station := {[ 1001 := 0 ]};
                  stations := [(0, [1001])];
                  reports := [] |}) as Hbefore by (vm_compute; reflexivity).
  apply (duplicate_station_rejected _ _ ["[Stations]"; "0 1001"] "0 1002" []
           _ 0 [1002] eq_refl Hbefore).
  - reflexivity.
  - apply (station_tokens_example _ "0" ["1002"]).
    + vm_compute. reflexivity.
    + vm_compute. reflexivity.
    + vm_compute. reflexivity.
    + constructor; [vm_compute; reflexivity|constructor].
    + unfold in_uint32, UINT32_MAX. lia.
    + constructor; [unfold in_uint32, UINT32_MAX; lia|constructor].
  - apply (station_key_declared _ _ 0 Hbefore).
    apply (bool_decide_unpack _). vm_compute. exact I.
  - repeat constructor. apply not_elem_of_nil.
  - constructor; [|constructor].
    intros Hd. apply (listed_declared _ _ 1002 Hbefore) in Hd.
    revert Hd. apply (bool_decide_unpack _). vm_compute. exact I.
Defined.

Lemma parse_lines_reports lines :
  ∀ st start st',
  parse_lines st start lines = Ok st' →
  ∃ rs,
    reports st' = reports st ++ rs ∧
    Forall2 report_tokens (report_data_lines (current_section st) lines) rs.
Proof.
  induction lines as [|line lines IH]; intros st start st' Hrun.
  { injection Hrun as <-. exists []. by rewrite app_nil_r. }
  rewrite parse_lines_cons in Hrun.
  apply bind_Ok in Hrun as (st1 & Hline & Hrun).
  rewrite parse_line_kind in Hline. cbn [report_data_lines].
  destruct (kind_of line) as [|s|] eqn:Hkind.
  - injection Hline as <-. by eapply IH.
  - injection Hline as <-. by apply (IH _ _ _ Hrun).
  - destruct (current_section st) as [[]|] eqn:Hsec; [| |done].
    + apply station_line_Ok in Hline
        as (? & ? & ? & ? & _ & _ & _ & _ & _ & _ & _ & _ & _ & Hrep & Hsec1).
      apply IH in Hrun as (rs & Hrs & Hall).
      exists rs. rewrite Hrs, Hrep. split; [done|].
      by rewrite Hsec1, Hsec in Hall.
    + apply report_line_Ok in Hline
        as (p0 & p1 & p2 & p3 & c & s & e & u & Hsplit & H0 & H1 & H2 & Hu
              & Hrc & Hrs & Hre & Hse & _ & ->).
      apply IH in Hrun as (rs & Hrs' & Hall).
      exists ((c, s, e, u) :: rs). split.
      * rewrite Hrs'. simpl. by rewrite <-app_assoc.
      * simpl in Hall. rewrite Hsec in Hall. constructor; [|done].
        split; [done|]. by exists p0, p1, p2, p3.
Qed.

(** X14. The reports are returned in the order of the file, one for each
    data line of the Reports sections, and each is what its line reads
    as. *)
Theorem reports_in_file_order fs file_path stations reports :
  parse_input_file fs file_path = Ok (stations, reports) →
  ∃ lines,
    fs file_path = FileLines lines ∧
    Forall2 report_tokens (report_data_lines None lines) reports.
Proof.
  unfold parse_input_file.
  destruct (fs file_path) as [| | |lines] eqn:Hfs; [done..|].
  cbn [mbind outcome_bind].
  intros (st & Hrun & _ & <- & _)%parse_text_Ok.
  exists lines. split; [done|].
  apply parse_lines_reports in Hrun as (rs & Hrs & Hall).
  simpl in Hrs. by rewrite Hrs.
Qed.

Lemma reports_in_file_order_witness :
  ∃ lines,
    FileLines ["[Stations]"; "0 1 2"; "[Charger Availability Reports]";
               "2 5 6 TRUE"; ""; "1 0 10 false"] = FileLines lines ∧
    Forall2 report_tokens (report_data_lines None lines)
            [(2, 5, 6, true); (1, 0, 10, false)].
Proof.
  apply (reports_in_file_order
           (λ _, FileLines
              ["[Stations]"; "0 1 2"; "[Charger Availability Reports]";
               "2 5 6 TRUE"; ""; "1 0 10 false"]) "input.txt" [(0, [1; 2])]).
  vm_compute. reflexivity.
Defined.

Lemma parse_lines_blank blanks :
  Forall (λ l, kind_of l = Blank) blanks →
  ∀ st start, parse_lines st start blanks = Ok st.
Proof.
  induction 1 as [|l blanks Hl _ IH]; intros st start; [done|].
  rewrite parse_lines_cons, parse_line_kind, Hl. cbn [mbind outcome_bind].
  apply IH.
Qed.

(** X15. A data line that comes before any section header is rejected
    with the error naming its line; blank lines before it are passed
    over. *)
Theorem data_before_header_rejected fs file_path blanks line after :
  fs file_path = FileLines (blanks ++ line :: after) →
  Forall (λ l, kind_of l = Blank) blanks →
  kind_of line = Data →
  parse_input_file fs file_path = Raise (DataBeforeHeader (S (length blanks))).
Proof.
  intros Hfs Hblank Hdata.
  rewrite (parse_input_file_lines _ _ _ Hfs). unfold parse_text.
  rewrite parse_lines_app, (parse_lines_blank _ Hblank).
  cbn [mbind outcome_bind]. rewrite parse_lines_cons, parse_line_kind, Hdata.
  done.
Qed.

Lemma data_before_header_rejected_witness :
  parse_input_file (λ _, FileLines [""; "  "; "0 1001"; "[Stations]"])
                   "input.txt"
  = Raise (DataBeforeHeader 3).
Proof.
  apply (data_before_header_rejected _ _ [""; "  "] "0 1001" ["[Stations]"]).
  - reflexivity.
  - repeat constructor.
  - vm_compute. reflexivity.
Defined.

(** X16. Parsing stops at the first error: once a line is rejected, the
    lines after it are not read, so whatever follows gives the same
    error. *)
Theorem parse_error_ignores_rest fs1 path1 fs2 path2 before after e :
  fs1 path1 = FileLines before →
  fs2 path2 = FileLines (before ++ after) →
  parse_input_file fs1 path1 = Raise e →
  e ≠ NoStationsDefined →
  parse_input_file fs2 path2 = Raise e.
Proof.
  intros Hfs1 Hfs2. rewrite (parse_input_file_lines _ _ _ Hfs1).
  rewrite (parse_input_file_lines _ _ _ Hfs2). unfold parse_text.
  rewrite parse_lines_app.
  destruct (parse_lines initial_state 1 before) as [st|e'];
    cbn [mbind outcome_bind]; [|done].
  case_bool_decide; [|done]. by intros [= <-].
Qed.

Lemma parse_error_ignores_rest_witness :
  parse_input_file
    (λ _, FileLines ["[Stations]"; "0 x"; "1 5"; "[Charger Availability Reports]"])
    "b.txt"
  = Raise (InvalidInteger 2).
Proof.
  apply (parse_error_ignores_rest
           (λ _, FileLines ["[Stations]"; "0 x"]) "a.txt" _ _
           ["[Stations]"; "0 x"]
           ["1 5"; "[Charger Availability Reports]"]).
  - reflexivity.
  - reflexivity.
  - vm_compute. reflexivity.
  - discriminate.
Defined.

(** ** Line numbers only matter for the errors *)

Lemma for_each_Ok_impl {E S X} (f g : S → X → outcome E S) xs :
  (∀ s x s', f s x = Ok s' → g s x = Ok s') →
  ∀ s s', for_each f s xs = Ok s' → for_each g s xs = Ok s'.
Proof.
  intros Hfg. induction xs as [|x xs IH]; intros s s' Hrun; [done|].
  cbn [for_each] in *. apply bind_Ok in Hrun as (s1 & Hstep & Hrun).
  rewrite (Hfg _ _ _ Hstep). cbn [mbind outcome_bind]. by apply IH.
Qed.

Lemma int_at_renumber n n' token z :
  int_at n token = Ok z → int_at n' token = Ok z.
Proof. rewrite !int_at_Ok. done. Qed.

Lemma charger_step_renumber n n' sid acc token acc' :
  charger_step n sid acc token = Ok acc' →
  charger_step n' sid acc token = Ok acc'.
Proof.
  destruct acc as [c2s acc]. rewrite !charger_step_unfold.
  intros (c & Hc & Hrest)%bind_Ok.
  rewrite (int_at_renumber n n' _ _ Hc). cbn [mbind outcome_bind].
  by repeat case_bool_decide.
Qed.

Lemma station_line_renumber n n' st line st' :
  station_line n st line = Ok st' → station_line n' st line = Ok st'.
Proof.
  unfold station_line. destruct (split line) as [|token tokens]; [done|].
  intros (sid & Hsid & Hrest)%bind_Ok.
  rewrite (int_at_renumber n n' _ _ Hsid). cbn [mbind outcome_bind].
  case_bool_decide; [done|].
  apply bind_Ok in Hrest as ([c2s cs] & Hloop & Hrest).
  rewrite (for_each_Ok_impl _ (charger_step n' sid) _
             (λ s x s', charger_step_renumber n n' sid s x s') _ _ Hloop).
  cbn [mbind outcome_bind]. by case_bool_decide.
Qed.

Lemma report_line_renumber n n' st line st' :
  report_line n st line = Ok st' → report_line n' st line = Ok st'.
Proof.
  unfold report_line.
  destruct (split line) as [|p0 [|p1 [|p2 [|p3 [|? ?]]]]]; try done.
  intros (c & Hc & Hrest)%bind_Ok.
  apply bind_Ok in Hrest as (s & Hs & Hrest).
  apply bind_Ok in Hrest as (e & He & Hrest).
  rewrite (int_at_renumber n n' _ _ Hc), (int_at_renumber n n' _ _ Hs),
    (int_at_renumber n n' _ _ He). cbn [mbind outcome_bind].
  repeat (case_bool_decide; [done|]).
  apply bind_Ok in Hrest as (u & Hu & Hrest).
  assert ((if bool_decide (lower p3 = "true") then Ok true
           else if bool_decide (lower p3 = "false") then Ok false
           else Raise (InvalidUpValue n')) = (Ok u : parsed bool)) as ->.
  { by repeat case_bool_decide. }
  cbn [mbind outcome_bind]. by repeat case_bool_decide.
Qed.

Lemma parse_line_renumber n n' st line st' :
  parse_line st (n, line) = Ok st' → parse_line st (n', line) = Ok st'.
Proof.
  rewrite !parse_line_kind. destruct (kind_of line); [done..|].
  destruct (current_section st) as [[]|]; [| |done].
  - apply station_line_renumber.
  - apply report_line_renumber.
Qed.

Lemma parse_lines_renumber lines :
  ∀ st start start' st',
  parse_lines st start lines = Ok st' → parse_lines st start' lines = Ok st'.
Proof.
  induction lines as [|line lines IH]; intros st start start' st' Hrun;
    [done|].
  rewrite parse_lines_cons in *.
  apply bind_Ok in Hrun as (st1 & Hline & Hrun).
  rewrite (parse_line_renumber _ start' _ _ _ Hline).
  cbn [mbind outcome_bind]. by eapply IH.
Qed.

Lemma parse_lines_skip_blank st start l1 blank l2 st' :
  kind_of blank = Blank →
  parse_lines st start (l1 ++ blank :: l2) = Ok st' ↔
  parse_lines st start (l1 ++ l2) = Ok st'.
Proof.
  intros Hblank. rewrite !parse_lines_app, !bind_Ok.
  split; intros (st1 & H1 & H2); exists st1; (split; [done|]).
  - rewrite parse_lines_cons, parse_line_kind, Hblank in H2.
    cbn [mbind outcome_bind] in H2. by eapply parse_lines_renumber.
  - rewrite parse_lines_cons, parse_line_kind, Hblank.
    cbn [mbind outcome_bind]. by eapply parse_lines_renumber.
Qed.

(** X17. Blank lines are ignored: a line that is empty or white space
    can be added anywhere, or removed, without changing what a successful
    parse returns, nor whether the parse succeeds. *)
Theorem blank_lines_ignored fs1 path1 fs2 path2 l1 blank l2 result :
  fs1 path1 = FileLines (l1 ++ blank :: l2) →
  fs2 path2 = FileLines (l1 ++ l2) →
  kind_of blank = Blank →
  parse_input_file fs1 path1 = Ok result ↔
  parse_input_file fs2 path2 = Ok result.
Proof.
  intros Hfs1 Hfs2 Hblank.
  rewrite (parse_input_file_lines _ _ _ Hfs1).
  rewrite (parse_input_file_lines _ _ _ Hfs2).
  unfold parse_text. rewrite !bind_Ok.
  split; intros (st & Hrun & Hret); exists st; (split; [|done]).
  - by apply (parse_lines_skip_blank _ _ l1 blank l2).
  - by apply (parse_lines_skip_blank _ _ l1 blank l2).
Qed.

Lemma blank_lines_ignored_witness :
  parse_input_file
    (λ _, FileLines ["[Stations]"; "0 1"; "[Charger Availability Reports]";
                     "1 0 10 true"]) "b.txt"
  = Ok ([(0, [1])], [(1, 0, 10, true)]).
Proof.
  refine (proj1 (blank_lines_ignored
           (λ _, FileLines ["[Stations]"; "0 1"; " 	 ";
                            "[Charger Availability Reports]"; "1 0 10 true"])
           "a.txt"
           (λ _, FileLines ["[Stations]"; "0 1";
                            "[Charger Availability Reports]"; "1 0 10 true"])
           "b.txt" ["[Stations]"; "0 1"] " 	 "
           ["[Charger Availability Reports]"; "1 0 10 true"]
           ([(0, [1])], [(1, 0, 10, true)]) _ _ _) _).
  - reflexivity.
  - reflexivity.
  - vm_compute. reflexivity.
  - vm_compute. reflexivity.
Defined.

(** ** White space between and around the tokens *)

Lemma lstrip_spaces l :
  ∃ sp, l = sp ++ lstrip l ∧ Forall (λ c, is_space c = true) sp.
Proof.
  induction l as [|c l (sp & Hl & Hsp)]; [by exists []|].
  cbn [lstrip]. destruct (is_space c) eqn:Hc.
  - exists (c :: sp). split; [by rewrite Hl at 1|by constructor].
  - by exists [].
Qed.

Lemma split_go_spaces sp : Forall (λ c, is_space c = true) sp →
  split_go [] sp = [].
Proof. induction 1 as [|c sp Hc _ IH]; [done|]. cbn [split_go]. by rewrite Hc. Qed.

Lemma split_go_leading sp l :
  Forall (λ c, is_space c = true) sp → split_go [] (sp ++ l) = split_go [] l.
Proof.
  induction 1 as [|c sp Hc _ IH]; [done|]. cbn [app split_go]. by rewrite Hc.
Qed.

Lemma split_go_trailing sp l :
  Forall (λ c, is_space c = true) sp →
  ∀ cur, split_go cur (l ++ sp) = split_go cur l.
Proof.
  intros Hsp. induction l as [|c l IH]; intros cur.
  - rewrite app_nil_l. destruct Hsp as [|c sp Hc Hsp]; [done|].
    cbn [split_go]. rewrite Hc, (split_go_spaces sp Hsp). by destruct cur.
  - cbn [app split_go]. destruct (is_space c); [|apply IH].
    destruct cur; by rewrite IH.
Qed.

Lemma split_strip s : split (strip s) = split s.
Proof.
  unfold split, strip. rewrite String.list_ascii_of_string_of_list_ascii.
  set (l := String.list_ascii_of_string s).
  destruct (lstrip_spaces l) as (sp1 & Hl & Hsp1).
  destruct (lstrip_spaces (reverse (lstrip l))) as (sp2 & Hr & Hsp2).
  rewrite Hl at 2. rewrite (split_go_leading _ _ Hsp1).
  assert (lstrip l = reverse (lstrip (reverse (lstrip l))) ++ reverse sp2)
    as Heq.
  { rewrite <-reverse_app, <-Hr. by rewrite reverse_involutive. }
  rewrite Heq at 2. rewrite split_go_trailing; [done|].
  by apply Forall_reverse.
Qed.

(** X18. A data line is read through its tokens alone: two data lines
    with the same tokens, however the tokens are spaced and whatever white
    space surrounds them, are treated alike in every state. *)
Theorem data_line_read_by_tokens line1 line2 st n :
  kind_of line1 = Data → kind_of line2 = Data →
  split line1 = split line2 →
  parse_line st (n, line1) = parse_line st (n, line2).
Proof.
  intros H1 H2 Heq. rewrite !parse_line_kind, H1, H2.
  unfold station_line, report_line. rewrite !split_strip, Heq. done.
Qed.

Lemma data_line_read_by_tokens_witness :
  parse_line initial_state (1%nat, "0 1001 1002")
  = parse_line initial_state (1%nat, "	0   1001	1002  ").
Proof.
  apply data_line_read_by_tokens; vm_compute; reflexivity.
Defined.

(** * Properties of [main] *)

Lemma uptime_of_range (rs : list report) :
  Forall (λ r, start_of r < end_of r) rs →
  0 ≤ uptime_of (triple_of <$> rs) ≤ 100.
Proof.
  intros Hv. destruct rs as [|r rs]; [simpl; lia|].
  pose proof (is_min_foldl (start_of r) (start_of <$> rs)) as Hlo.
  pose proof (is_max_foldl (end_of r) (end_of <$> rs)) as Hhi.
  set (lo := foldl Z.min (start_of r) (start_of <$> rs)) in *.
  set (hi := foldl Z.max (end_of r) (end_of <$> rs)) in *.
  destruct (valid_reports_window (r :: rs) lo hi Hv Hlo Hhi)
    as (Hlt & Hup & Htot).
  rewrite (uptime_of_reports (r :: rs) lo hi Hlo Hhi).
  rewrite bool_decide_false by lia. rewrite Htot.
  apply percent_bounds; lia.
Qed.

Lemma sorted_keys_Permutation (m : gmap Z Z) (ks : list Z) :
  NoDup ks → dom m = list_to_set ks → sorted_keys m ≡ₚ ks.
Proof.
  intros Hnd Hdom. unfold sorted_keys. rewrite merge_sort_Permutation.
  apply NoDup_Permutation; [apply NoDup_fst_map_to_list|done|].
  intros k. rewrite <-(elem_of_list_to_set (C := gset Z) k ks), <-Hdom.
  rewrite elem_of_dom, list_elem_of_fmap. split.
  - intros ([k' v] & -> & Hkv%elem_of_map_to_list). eauto.
  - intros [v Hv]. exists (k, v). split; [done|].
    by apply elem_of_map_to_list.
Qed.

Lemma sorted_keys_ascending (m : gmap Z Z) :
  StronglySorted Z.lt (sorted_keys m).
Proof.
  unfold sorted_keys.
  assert (NoDup (merge_sort Z.le (map_to_list m).*1)) as Hnd.
  { rewrite merge_sort_Permutation. apply NoDup_fst_map_to_list. }
  pose proof (StronglySorted_merge_sort Z.le (map_to_list m).*1) as Hs.
  induction Hs as [|k l Hs IH Hk]; [constructor|].
  apply NoDup_cons in Hnd as [Hnin Hnd]. constructor; [by apply IH|].
  apply Forall_forall. intros x Hx.
  pose proof (proj1 (Forall_forall _ _) Hk x Hx).
  assert (k ≠ x) by (by intros ->). lia.
Qed.

Lemma print_uptimes_all (uptimes : gmap Z Z) keys :
  Forall (λ k, is_Some (uptimes !! k)) keys →
  ∀ out, ∃ lines,
    print_uptimes uptimes keys out = (out ++ lines, None) ∧
    Forall2 (λ k line, ∃ pct, uptimes !! k = Some pct ∧
                              line = uptime_line k pct) keys lines.
Proof.
  induction 1 as [|k keys [pct Hk] _ IH]; intros out.
  { exists []. by rewrite app_nil_r. }
  destruct (IH (out ++ [uptime_line k pct])) as (lines & Hprint & Hall).
  exists (uptime_line k pct :: lines). split.
  - cbn [print_uptimes]. unfold dict_getitem. rewrite Hk, Hprint.
    by rewrite <-app_assoc.
  - constructor; [eauto|done].
Qed.

Lemma uptime_line_not_ERROR k pct : uptime_line k pct ≠ "ERROR".
Proof.
  unfold uptime_line. generalize (pretty k) (pretty pct). intros s t H.
  destruct s as [|a1 [|a2 [|a3 [|a4 [|a5 [|a6 s]]]]]]; discriminate H.
Qed.

Lemma main_after_parse fs program input_file stations reports :
  parse_input_file fs input_file = Ok (stations, reports) →
  ∃ uptimes keys lines,
    calculate_station_uptime stations reports = Ok uptimes ∧
    keys ≡ₚ stations.*1 ∧
    StronglySorted Z.lt keys ∧
    Forall2 (λ sid line, ∃ pct, uptimes !! sid = Some pct ∧
                                0 ≤ pct ≤ 100 ∧
                                line = uptime_line sid pct) keys lines ∧
    main fs [program; input_file] = Run lines [] Returns.
Proof.
  intros Hparse.
  assert (parser_invariants stations reports) as (Hwf & Hd & Hk & Hv & _).
  { unfold parse_input_file in Hparse.
    destruct (fs input_file) as [| | |lines]; [done..|].
    by apply (parse_text_invariants lines). }
  apply chargers_distinct_unique in Hd.
  destruct (calculate_station_uptime_Ok stations reports Hk)
    as (uptimes & Hcalc & Hlook).
  assert (dom uptimes = list_to_set stations.*1) as Hdom.
  { apply set_eq. intros sid.
    rewrite elem_of_dom, elem_of_list_to_set, Hlook.
    case_decide; split; intros Hx;
      first [done | by eexists | by destruct Hx as [? ?]]. }
  pose proof (sorted_keys_Permutation uptimes stations.*1 Hwf Hdom) as Hperm.
  destruct (print_uptimes_all uptimes (sorted_keys uptimes)) with (out := @nil string)
    as (lines & Hprint & Hall).
  { apply Forall_forall. intros k Hk'. rewrite Hperm in Hk'.
    rewrite Hlook. by rewrite decide_True. }
  exists uptimes, (sorted_keys uptimes), lines.
  split; [done|]. split; [done|]. split; [apply sorted_keys_ascending|].
  split.
  - eapply Forall2_impl; [exact Hall|]. intros k line (pct & Hpct & ->).
    exists pct. split; [done|]. split; [|done].
    rewrite Hlook in Hpct. case_decide; [|done]. injection Hpct as <-.
    rewrite grouped_reports_of by done. apply uptime_of_range.
    unfold reports_of. apply Forall_forall.
    intros x [_ Hx]%list_elem_of_filter.
    by eapply (proj1 (Forall_forall _ _)) in Hv.
  - unfold main. rewrite bool_decide_false by (simpl; lia).
    cbn [list_getitem lookup list_lookup]. rewrite Hparse, Hcalc, Hprint.
    done.
Qed.

(** X19. When the file parses, [main] prints one line
    ["<stationID> <percent>"] for each station of the file, by ascending
    station ID, every percentage between 0 and 100, prints nothing to the
    standard error and returns, so that the exit status is 0: the
    calculator cannot fail on what the parser returns. *)
Theorem main_prints_uptimes fs program input_file stations reports :
  parse_input_file fs input_file = Ok (stations, reports) →
  ∃ uptimes keys lines,
    calculate_station_uptime stations reports = Ok uptimes ∧
    keys ≡ₚ stations.*1 ∧
    StronglySorted Z.lt keys ∧
    Forall2 (λ sid line, ∃ pct, uptimes !! sid = Some pct ∧
                                0 ≤ pct ≤ 100 ∧
                                line = uptime_line sid pct) keys lines ∧
    main fs [program; input_file] = Run lines [] Returns ∧
    exit_code (status (main fs [program; input_file])) = 0.
Proof.
  intros Hparse.
  destruct (main_after_parse fs program input_file _ _ Hparse)
    as (uptimes & keys & lines & Hcalc & Hperm & Hsorted & Hall & Hmain).
  exists uptimes, keys, lines. repeat (split; [done|]). by rewrite Hmain.
Qed.

Lemma main_prints_uptimes_witness :
  ∃ lines,
    main (λ _, FileLines
            ["[Stations]"; "1 1"; "0 0"; "[Charger Availability Reports]";
             "0 10 20 true"; "0 20 30 false"; "0 30 40 true"; "1 0 1 true"])
         ["station_uptime.py"; "input_2.txt"] = Run lines [] Returns.
Proof.
  destruct (main_prints_uptimes
              (λ _, FileLines
                 ["[Stations]"; "1 1"; "0 0"; "[Charger Availability Reports]";
                  "0 10 20 true"; "0 20 30 false"; "0 30 40 true";
                  "1 0 1 true"])
              "station_uptime.py" "input_2.txt"
              [(1, [1]); (0, [0])]
              [(0, 10, 20, true); (0, 20, 30, false); (0, 30, 40, true);
               (1, 0, 1, true)])
    as (uptimes & keys & lines & _ & _ & _ & _ & Hmain & _).
  - vm_compute. reflexivity.
  - exists lines. exact Hmain.
Defined.

(** X20. What [main] does is decided by its arguments and by the
    parser alone. Without a program name it prints ERROR and ends on the
    [IndexError] of [sys.argv[0]]. With a number of arguments other than
    two it prints ERROR, the usage message on the standard error, and
    exits with status 1. With two arguments and a file that the parser
    refuses it prints ERROR, ["Error: "] and the message of the parse
    error, and exits with status 1. With two arguments and a file that
    parses it prints the uptime lines of the stations by ascending station
    ID, none of them the line ERROR, nothing on the standard error, and
    returns. So the calculator and the printing loop raise nothing on what
    the parser returns: no run reports an unexpected error. *)
Theorem main_outcomes fs argv :
  match argv with
  | [] => main fs argv = Run ["ERROR"] [] (Uncaught IndexError)
  | [program; input_file] =>
      match parse_input_file fs input_file with
      | Raise e =>
          main fs argv
          = Run ["ERROR"] ["Error: " +:+ message e] (SysExit 1)
      | Ok (stations0, reports0) =>
          ∃ uptimes keys lines,
            calculate_station_uptime stations0 reports0 = Ok uptimes ∧
            keys ≡ₚ stations0.*1 ∧
            StronglySorted Z.lt keys ∧
            Forall2 (λ sid line, ∃ pct, uptimes !! sid = Some pct ∧
                                        line = uptime_line sid pct)
                    keys lines ∧
            ("ERROR" ∉ lines) ∧
            main fs argv = Run lines [] Returns
      end
  | program :: _ =>
      main fs argv
      = Run ["ERROR"] ["Usage: " +:+ program +:+ " <input_file>"] (SysExit 1)
  end ∧
  ∀ text, stderr (main fs argv) ≠ ["Unexpected error: " +:+ text].
Proof.
  destruct argv as [|program [|input_file [|extra rest]]].
  - split; [done|]. intros text. discriminate.
  - split; [done|]. intros text. discriminate.
  - destruct (parse_input_file fs input_file) as [[stations0 reports0]|e]
      eqn:Hparse.
    + destruct (main_after_parse fs program input_file _ _ Hparse)
        as (uptimes & keys & lines & Hcalc & Hperm & Hsorted & Hall & Hmain).
      split; [|by rewrite Hmain].
      exists uptimes, keys, lines. repeat (split; [done|]). split.
      * eapply Forall2_impl; [exact Hall|].
        intros sid line (pct & Hpct & _ & Hline). eauto.
      * split; [|done]. intros (i & Hi)%list_elem_of_lookup.
        destruct (Forall2_lookup_r _ _ _ _ _ Hall Hi)
          as (k & _ & pct & _ & _ & Hl).
        by apply (uptime_line_not_ERROR k pct).
    + assert (main fs [program; input_file]
              = Run ["ERROR"] ["Error: " +:+ message e] (SysExit 1)) as Hmain.
      { unfold main. rewrite bool_decide_false by (simpl; lia).
        cbn [list_getitem lookup list_lookup]. by rewrite Hparse. }
      split; [done|]. rewrite Hmain. intros text. discriminate.
  - split; [done|]. intros text. discriminate.
Qed.
